(** * Pattern drawer of the builtin plugin (plugins/builtin/source/ui/pattern_drawer.cpp)

    A shallow embedding of [PatternDrawer]: the pattern tree it walks, the
    per-node display-end map it owns ([m_displayEnd]), the rows it emits into
    the ImGui table, the sort comparator [sortPatterns] and the sorted-order
    cache of [beginPatternTable].

    Modelling conventions.
    - Every u64 / u32 quantity is a [Z]; the places where the code does
      unsigned arithmetic write the wrap-around out with [wrap64].
    - [&pattern] (object identity, the key of [m_displayEnd]) is the field
      [a_id] of the node's attributes.
    - ImGui is an oracle [Ui]: which tree nodes are expanded, whether the
      "load more" placeholder of a node is double-clicked in this frame, and
      the hex editor's current selection.
    - Drawing is a state-passing action [D] over the display-end map that
      also returns the events it emitted: [Visit id] when [accept] dispatches
      on a node, [Emit r] for each table row. *)

From Stdlib Require Import ZArith List String Ascii Bool Lia PrimFloat.
From Stdlib Require Import Sorting.Permutation.
From stdpp Require Import base gmap list.

Import ListNotations.
Open Scope Z_scope.
#[local] Set Warnings "-register-all".

(* ------------------------------------------------------------------ *)
(** ** Pattern model (pl::ptrn) *)

(** [pl::core::Token::Literal], the result of [Pattern::getValue()]:
    [std::variant<char, bool, u128, i128, double, std::string,
    std::shared_ptr<Pattern>>]. *)
Inductive Literal : Type :=
| LChar (c : Z)
| LBool (b : bool)
| LUnsigned (v : Z)
| LSigned (v : Z)
| LDouble (f : float)
| LString (s : string)
| LPattern (ptr : nat).

Definition literal_index (l : Literal) : nat :=
  match l with
  | LChar _ => 0 | LBool _ => 1 | LUnsigned _ => 2 | LSigned _ => 3
  | LDouble _ => 4 | LString _ => 5 | LPattern _ => 6
  end.

(** [std::string::operator<]: lexicographic on unsigned chars. *)
Definition string_lt (a b : string) : bool :=
  match String.compare a b with Lt => true | _ => false end.

(** [std::variant::operator<]: first by alternative index, then by value. *)
Definition literal_lt (a b : Literal) : bool :=
  match a, b with
  | LChar x, LChar y => Z.ltb x y
  | LBool x, LBool y => negb x && y
  | LUnsigned x, LUnsigned y => Z.ltb x y
  | LSigned x, LSigned y => Z.ltb x y
  | LDouble x, LDouble y => PrimFloat.ltb x y
  | LString x, LString y => string_lt x y
  | LPattern x, LPattern y => Nat.ltb x y
  | _, _ => Nat.ltb (literal_index a) (literal_index b)
  end.

(** The attributes every [pl::ptrn::Pattern] exposes. *)
Record Attrs : Type := mkAttrs {
  a_id : nat;                 (* &pattern *)
  a_offset : Z;               (* getOffset(), u64 *)
  a_size : Z;                 (* getSize(), u64 *)
  a_displayName : string;
  a_variableName : string;
  a_typeName : string;
  a_formattedName : string;
  a_formattedValue : string;
  a_value : Literal;          (* getValue() *)
  a_color : Z;                (* getColor(), u32 *)
  a_comment : string;
  a_hidden : bool;
  a_sealed : bool;
  a_inlined : bool
}.

(** The node kinds the drawer visits. Arrays, bitfields, structs and unions
    carry their entries; a pointer carries its pointee. *)
Inductive Pattern : Type :=
| PArrayDynamic (a : Attrs) (entries : list Pattern)
| PArrayStatic (a : Attrs) (entries : list Pattern)
| PBitfield (a : Attrs) (fields : list Pattern)
| PBitfieldField (a : Attrs) (bitOffset bitSize : Z)
| PBoolean (a : Attrs)
| PCharacter (a : Attrs)
| PEnum (a : Attrs)
| PFloat (a : Attrs)
| PPadding (a : Attrs)
| PPointer (a : Attrs) (pointee : Pattern)
| PSigned (a : Attrs)
| PString (a : Attrs)
| PStruct (a : Attrs) (members : list Pattern)
| PUnion (a : Attrs) (members : list Pattern)
| PUnsigned (a : Attrs)
| PWideCharacter (a : Attrs)
| PWideString (a : Attrs).

Definition attrs_of (p : Pattern) : Attrs :=
  match p with
  | PArrayDynamic a _ | PArrayStatic a _ | PBitfield a _ | PBitfieldField a _ _
  | PBoolean a | PCharacter a | PEnum a | PFloat a | PPadding a | PPointer a _
  | PSigned a | PString a | PStruct a _ | PUnion a _ | PUnsigned a
  | PWideCharacter a | PWideString a => a
  end.

(** Every node identity occurring in a subtree. *)
Fixpoint ids_of (p : Pattern) : list nat :=
  let ids_all := fix ids_all (l : list Pattern) : list nat :=
    match l with [] => [] | q :: r => ids_of q ++ ids_all r end in
  a_id (attrs_of p) ::
  match p with
  | PArrayDynamic _ es | PArrayStatic _ es | PBitfield _ es
  | PStruct _ es | PUnion _ es => ids_all es
  | PPointer _ q => ids_of q
  | _ => []
  end.

(** The nodes [accept] recurses into. *)
Definition children (p : Pattern) : list Pattern :=
  match p with
  | PArrayDynamic _ es | PArrayStatic _ es | PBitfield _ es
  | PStruct _ es | PUnion _ es => es
  | PPointer _ q => [q]
  | _ => []
  end.

(** Induction over the tree, through the children lists. *)
Fixpoint Pattern_children_ind (P : Pattern -> Prop)
    (H : forall p, (forall q, In q (children p) -> P q) -> P p) (p : Pattern) {struct p}
    : P p :=
  let fix all (l : list Pattern) : forall q, In q l -> P q :=
    match l as l0 return forall q, In q l0 -> P q with
    | [] => fun q Hq => False_ind _ Hq
    | e :: r => fun q Hq =>
        match Hq with
        | or_introl E => eq_ind e P (Pattern_children_ind P H e) q E
        | or_intror Hr => all r q Hr
        end
    end in
  H p (match p as p0 return forall q, In q (children p0) -> P q with
       | PArrayDynamic _ es => all es
       | PArrayStatic _ es => all es
       | PBitfield _ es => all es
       | PStruct _ es => all es
       | PUnion _ es => all es
       | PPointer _ q0 => fun q Hq =>
           match Hq with
           | or_introl E => eq_ind q0 P (Pattern_children_ind P H q0) q E
           | or_intror Hr => False_ind _ Hr
           end
       | _ => fun q Hq => False_ind _ Hq
       end).

(* ------------------------------------------------------------------ *)
(** ** Selection (ImHexApi::HexEditor) *)

Record Region : Type := mkRegion { r_address : Z; r_size : Z }.

(** Modelled from the spec: [Region::overlaps] (libimhex, not part of this
    source file) is the standard overlap test of the half-open byte ranges
    [address, address+size); an empty range overlaps nothing. *)
Definition Region_overlaps (x y : Region) : bool :=
  Z.max (r_address x) (r_address y)
    <? Z.min (r_address x + r_size x) (r_address y + r_size y).

(** The ImGui / ImHex state read during one frame. *)
Record Ui : Type := mkUi {
  ui_selection : option Region;          (* ImHexApi::HexEditor::getSelection() *)
  ui_node_open : nat -> bool;            (* TreeNodeEx of a node's header *)
  ui_chunk_open : nat -> nat -> bool;    (* TreeNodeEx of chunk [i ...] of a node *)
  ui_reveal_click : nat -> bool          (* placeholder hovered and double-clicked *)
}.

Definition isPatternSelected (u : Ui) (address size : Z) : bool :=
  match ui_selection u with
  | None => false
  | Some currSelection => Region_overlaps (mkRegion address size) currSelection
  end.

(* ------------------------------------------------------------------ *)
(** ** Table rows *)

(** The type column of a row. *)
Inductive TypeColumn : Type :=
| TypeText (s : string)                   (* one colored text *)
| TypeKeyword (kw : string) (tn : string) (* drawTypenameColumn(pattern, kw) *)
| TypeArray (tn : string) (count : nat).  (* typeName [count] *)

Inductive Row : Type :=
  (** createDefaultEntry, and the enum row (type column [enum]) *)
| EntryRow (id : nat) (selected : bool) (color : Z) (offStart offEnd size : Z)
    (typ : TypeColumn) (value : string)
  (** a bitfield field *)
| FieldRow (id : nat) (selected : bool) (color : Z) (byteAddr firstBit lastBit : Z)
    (bitSize : Z) (value : string)
  (** the header of a struct, union, bitfield, pointer or array;
      [expandable] is false for a sealed node (createTreeNode's flat text) *)
| HeaderRow (id : nat) (selected : bool) (expandable : bool) (swatch : option Z)
    (offStart offEnd size : Z) (typ : TypeColumn) (value : string)
  (** the summary row of entries [first .. last] of an array *)
| ChunkRow (id : nat) (first last : nat) (selected : bool) (color : Z)
    (offStart offEnd size : Z) (typ : TypeColumn)
  (** "... (double-click to load more)"; [clicked] when double-clicked *)
| PlaceholderRow (id : nat) (clicked : bool).

Inductive Event : Type :=
| Visit (id : nat)
| Emit (r : Row).

Definition rows_of (ev : list Event) : list Row :=
  flat_map (fun e => match e with Emit r => [r] | Visit _ => [] end) ev.

(* ------------------------------------------------------------------ *)
(** ** Drawing actions *)

(** [m_displayEnd]: node identity to number of chunks shown. *)
Abbreviation DisplayEnds := (gmap nat Z).

Definition D : Type := DisplayEnds -> DisplayEnds * list Event.

Definition skip : D := fun m => (m, []).
Definition emit (e : Event) : D := fun m => (m, [e]).
Definition seqD (x y : D) : D :=
  fun m => let '(m1, e1) := x m in let '(m2, e2) := y m1 in (m2, e1 ++ e2).
Notation "x ;; y" := (seqD x y).

Fixpoint seq_all (l : list D) : D :=
  match l with [] => skip | x :: r => x ;; seq_all r end.

Definition wrap64 (z : Z) : Z := z mod 2 ^ 64.

Definition DisplayEndDefault : Z := 50.
Definition DisplayEndStep : Z := 50.
Definition ChunkSize : nat := 50.

(** [PatternDrawer::getDisplayEnd]: the entry of the node, created with
    [DisplayEndDefault] on first access. *)
Definition getDisplayEnd (id : nat) (m : DisplayEnds) : Z * DisplayEnds :=
  match m !! id with
  | Some v => (v, m)
  | None => (DisplayEndDefault, <[id := DisplayEndDefault]> m)
  end.

(** The end column of drawOffsetColumn: [offset + size - (size == 0 ? 0 : 1)]. *)
Definition offsetEnd (a : Attrs) : Z :=
  wrap64 (a_offset a + a_size a - (if a_size a =? 0 then 0 else 1)).

Definition selectedA (u : Ui) (a : Attrs) : bool :=
  isPatternSelected u (a_offset a) (a_size a).

(** The row createDefaultEntry draws. *)
Definition defaultEntryRow (u : Ui) (a : Attrs) : Row :=
  EntryRow (a_id a) (selectedA u a) (a_color a) (a_offset a) (offsetEnd a) (a_size a)
    (TypeText (if String.eqb (a_formattedName a) EmptyString then a_typeName a
               else a_formattedName a))
    (a_formattedValue a).

(** createDefaultEntry *)
Definition createDefaultEntry (u : Ui) (a : Attrs) : D :=
  emit (Emit (defaultEntryRow u a)).

(** createTreeNode: a sealed node is flat text and never open; otherwise
    the tree node is open when the user expanded it. *)
Definition createTreeNode (u : Ui) (a : Attrs) : bool :=
  if a_sealed a then false else ui_node_open u (a_id a).

Definition headerRow (u : Ui) (a : Attrs) (swatch : option Z) (typ : TypeColumn) : Event :=
  Emit (HeaderRow (a_id a) (selectedA u a) (negb (a_sealed a)) swatch
    (a_offset a) (offsetEnd a) (a_size a) typ (a_formattedValue a)).

(** The shape shared by the bitfield, pointer, struct and union visitors:
    the header unless inlined, then the children when open. *)
Definition drawComposite (u : Ui) (a : Attrs) (swatch : option Z) (typ : TypeColumn)
    (children : D) : D :=
  let open_ := if a_inlined a then true else createTreeNode u a in
  (if a_inlined a then skip else emit (headerRow u a swatch typ)) ;;
  (if open_ then children else skip).

(** visit(PatternBitfieldField&) *)
Definition visitBitfieldField (u : Ui) (a : Attrs) (bitOffset bitSize : Z) : D :=
  let byteAddr := wrap64 (a_offset a + bitOffset / 8) in
  let firstBitIdx := bitOffset mod 8 in
  let lastBitIdx := wrap64 (firstBitIdx + wrap64 (bitSize - 1)) in
  emit (Emit (FieldRow (a_id a) (selectedA u a) (a_color a) byteAddr firstBitIdx lastBitIdx
    bitSize (a_formattedValue a))).

(** visit(PatternEnum&) *)
Definition visitEnum (u : Ui) (a : Attrs) : D :=
  emit (Emit (EntryRow (a_id a) (selectedA u a) (a_color a) (a_offset a) (offsetEnd a)
    (a_size a) (TypeKeyword "enum" (a_typeName a)) (a_formattedValue a))).

(** visit(PatternBitfield&): the color column is always drawn. *)
Definition visitBitfield (u : Ui) (a : Attrs) (fields : list D) : D :=
  drawComposite u a (Some (a_color a)) (TypeKeyword "bitfield" (a_typeName a))
    (seq_all fields).

(** visit(PatternPointer&): the color column is always drawn; the pointee is
    visited through [accept], not through [draw]. *)
Definition visitPointer (u : Ui) (a : Attrs) (pointee : D) : D :=
  drawComposite u a (Some (a_color a)) (TypeText (a_formattedName a)) pointee.

(** visit(PatternStruct&) and visit(PatternUnion&): the color column only
    when sealed. *)
Definition visitStruct (u : Ui) (a : Attrs) (members : list D) : D :=
  drawComposite u a (if a_sealed a then Some (a_color a) else None)
    (TypeKeyword "struct" (a_typeName a)) (seq_all members).

Definition visitUnion (u : Ui) (a : Attrs) (members : list D) : D :=
  drawComposite u a (if a_sealed a then Some (a_color a) else None)
    (TypeKeyword "union" (a_typeName a)) (seq_all members).

(** [getEntry(i)] of an array; [i] is always in range where it is used. *)
Definition nullAttrs : Attrs :=
  mkAttrs 0 0 0 EmptyString EmptyString EmptyString EmptyString EmptyString
    (LBool false) 0 EmptyString false false false.

Definition entryAt (entries : list Pattern) (i : nat) : Attrs :=
  attrs_of (nth i entries (PPadding nullAttrs)).

(** One chunk of [drawArray]: the summary row of entries
    [i .. endIndex - 1], then the entries when the chunk is expanded
    ([forEachEntry(i, endIndex, draw)]). *)
Definition chunkBody (u : Ui) (a : Attrs) (entries : list Pattern) (draws : list D)
    (i : nat) : D :=
  let endIndex := Nat.min (length entries) (i + ChunkSize) in
  let startOffset := a_offset (entryAt entries i) in
  let endOffset := a_offset (entryAt entries (endIndex - 1)) in
  let endSize := a_size (entryAt entries (endIndex - 1)) in
  let chunkSize := wrap64 ((endOffset - startOffset) + endSize) in
  let selected := isPatternSelected u startOffset
                    (wrap64 (((endOffset + endSize) - startOffset) - 1)) in
  let chunkOpen := ui_chunk_open u (a_id a) i in
  emit (Emit (ChunkRow (a_id a) i (endIndex - 1) selected (a_color a) startOffset
          (wrap64 (startOffset + chunkSize - (if a_size a =? 0 then 0 else 1)))
          chunkSize (TypeArray (a_typeName a) (endIndex - i)))) ;;
  (if chunkOpen then seq_all (firstn (endIndex - i) (skipn i draws)) else skip).

(** The chunk loop of [drawArray]:
    [for (i = 0; i < getEntryCount(); i += ChunkSize)]. [fuel] bounds the
    number of iterations; [length entries] iterations always suffice. *)
Fixpoint chunkLoop (u : Ui) (a : Attrs) (entries : list Pattern) (draws : list D)
    (fuel : nat) (i : nat) (chunkCount : Z) : D :=
  match fuel with
  | O => skip
  | S fuel' =>
    if Nat.ltb i (length entries) then
      fun m =>
        let chunkCount' := chunkCount + 1 in
        let '(displayEnd, m1) := getDisplayEnd (a_id a) m in
        if displayEnd <? chunkCount' then
          let clicked := ui_reveal_click u (a_id a) in
          ((if clicked then <[a_id a := wrap64 (displayEnd + DisplayEndStep)]> m1 else m1),
           [Emit (PlaceholderRow (a_id a) clicked)])
        else
          (chunkBody u a entries draws i ;;
           chunkLoop u a entries draws fuel' (i + ChunkSize) chunkCount') m1
    else skip
  end.

(** PatternDrawer::drawArray *)
Definition drawArray (u : Ui) (a : Attrs) (entries : list Pattern) (draws : list D)
    (isInlined : bool) : D :=
  if Nat.eqb (length entries) 0 then skip else
  let open_ := if isInlined then true else createTreeNode u a in
  (if isInlined then skip
   else emit (headerRow u a (if a_sealed a then Some (a_color a) else None)
                (TypeArray (a_typeName a) (length entries)))) ;;
  (if open_ then chunkLoop u a entries draws (length entries) 0 0 else skip).

(** [pattern.accept] on the drawer: dispatch on the node kind to its visit. The
    children of arrays, bitfields, structs and unions go through [draw]
    (inlined here as [drawAll]); the pointee of a pointer through [accept]. *)
Fixpoint accept (u : Ui) (p : Pattern) {struct p} : D :=
  let drawAll := fix drawAll (l : list Pattern) : list D :=
    match l with
    | [] => []
    | q :: r => (if a_hidden (attrs_of q) then skip else accept u q) :: drawAll r
    end in
  emit (Visit (a_id (attrs_of p))) ;;
  match p with
  | PArrayDynamic a es => drawArray u a es (drawAll es) (a_inlined a)
  | PArrayStatic a es => drawArray u a es (drawAll es) (a_inlined a)
  | PBitfield a fs => visitBitfield u a (drawAll fs)
  | PBitfieldField a bo bs => visitBitfieldField u a bo bs
  | PBoolean a | PCharacter a | PFloat a | PSigned a | PUnsigned a
  | PWideCharacter a => createDefaultEntry u a
  | PEnum a => visitEnum u a
  | PPadding _ => skip
  | PPointer a q => visitPointer u a (accept u q)
  | PString a | PWideString a => if 0 <? a_size a then createDefaultEntry u a else skip
  | PStruct a ms => visitStruct u a (drawAll ms)
  | PUnion a ms => visitUnion u a (drawAll ms)
  end.

(** PatternDrawer::draw(Pattern&) *)
Definition draw (u : Ui) (p : Pattern) : D :=
  if a_hidden (attrs_of p) then skip else accept u p.

(** PatternDrawer::draw(patterns): each pattern in turn. *)
Definition drawAllTop (u : Ui) (ps : list Pattern) : D :=
  seq_all (map (draw u) ps).

(* ------------------------------------------------------------------ *)
(** ** Sorting (sortPatterns, beginPatternTable) *)

Inductive ImGuiSortDirection : Type :=
| ImGuiSortDirection_None
| ImGuiSortDirection_Ascending
| ImGuiSortDirection_Descending.

(** [ImGuiTableSortSpecs]: the sorted column and direction, and the dirty
    flag ImGui raises when the user changes them. A column's user id is
    [ImGui::GetID(key)] for its key ("name", "offset", ...); it is modelled
    by that key. *)
Record SortSpec : Type := mkSortSpec {
  ColumnUserID : string;
  SortDirection : ImGuiSortDirection
}.

(** sortPatterns *)
Definition sortPatterns (s : SortSpec) (left right : Pattern) : bool :=
  let l := attrs_of left in
  let r := attrs_of right in
  let asc := match SortDirection s with ImGuiSortDirection_Ascending => true | _ => false end in
  let c := ColumnUserID s in
  if String.eqb c "name" then
    if asc then string_lt (a_displayName r) (a_displayName l)
    else string_lt (a_displayName l) (a_displayName r)
  else if String.eqb c "offset" then
    if asc then a_offset r <? a_offset l else a_offset l <? a_offset r
  else if String.eqb c "size" then
    if asc then a_size r <? a_size l else a_size l <? a_size r
  else if String.eqb c "value" then
    if asc then literal_lt (a_value r) (a_value l) else literal_lt (a_value l) (a_value r)
  else if String.eqb c "type" then
    if asc then string_lt (a_typeName r) (a_typeName l)
    else string_lt (a_typeName l) (a_typeName r)
  else if String.eqb c "color" then
    if asc then a_color r <? a_color l else a_color l <? a_color r
  else false.

(** [std::is_sorted(first, last, comp)]: no element is [comp]-less than
    its predecessor; the postcondition of [std::sort]. *)
Fixpoint is_sorted_by {A : Type} (comp : A -> A -> bool) (l : list A) : bool :=
  match l with
  | x :: ((y :: _) as r) => negb (comp y x) && is_sorted_by comp r
  | _ => true
  end.

Section SortCacheModel.

(** Node handles ([Pattern *]) and the pattern store they point into. *)
Context {Ptr Store : Type}.
Variable deref : Store -> Ptr -> Pattern.
(** [std::sort]: the sorted sequence and the number of comparator calls. *)
Variable std_sort : (Ptr -> Ptr -> bool) -> list Ptr -> list Ptr * nat.
(** [Pattern::sort(comp)] (pattern library): re-sorts the node's children
    in the store; returns the number of comparator calls. *)
Variable pattern_sort : (Pattern -> Pattern -> bool) -> Ptr -> Store -> Store * nat.

Record TableState : Type := mkTableState {
  sortedPatterns : list Ptr;   (* m_sortedPatterns *)
  specsDirty : bool;           (* sortSpecs->SpecsDirty *)
  store : Store
}.

Fixpoint sortEach (comp : Pattern -> Pattern -> bool) (ps : list Ptr) (s : Store)
    : Store * nat :=
  match ps with
  | [] => (s, O)
  | p :: r =>
    let '(s1, n1) := pattern_sort comp p s in
    let '(s2, n2) := sortEach comp r s1 in
    (s2, (n1 + n2)%nat)
  end.

(** beginPatternTable: [visible] is the result of [ImGui::BeginTable].
    Returns whether the table is open, the new state and the number of
    comparator calls made. *)
Definition beginPatternTable (visible : bool) (spec : SortSpec) (patterns : list Ptr)
    (st : TableState) : bool * TableState * nat :=
  if negb visible then (false, st, O) else
  let sorted0 := match patterns with [] => [] | _ => sortedPatterns st end in
  let nonEmpty := match patterns with [] => false | _ => true end in
  let cacheEmpty := match sorted0 with [] => true | _ => false end in
  if nonEmpty && (specsDirty st || cacheEmpty) then
    let comp := fun l r => sortPatterns spec (deref (store st) l) (deref (store st) r) in
    let '(sorted, n1) := std_sort comp patterns in
    let '(s', n2) := sortEach (sortPatterns spec) sorted (store st) in
    (true, mkTableState sorted false s', (n1 + n2)%nat)
  else (true, mkTableState sorted0 (specsDirty st) (store st), O).

(** PatternDrawer::draw(patterns, height): the table, then every pattern
    of the sorted cache. Returns the new table state, display-end map,
    events and comparator calls. *)
Definition drawTable (u : Ui) (visible : bool) (spec : SortSpec) (patterns : list Ptr)
    (st : TableState) (m : DisplayEnds) : TableState * DisplayEnds * list Event * nat :=
  let '(ok, st', n) := beginPatternTable visible spec patterns st in
  if ok then
    let '(m', ev) := drawAllTop u (map (deref (store st')) (sortedPatterns st')) m in
    (st', m', ev, n)
  else (st', m, [], n).

End SortCacheModel.

(* ------------------------------------------------------------------ *)
(** ** Observations on the emitted events *)

Definition row_id (r : Row) : nat :=
  match r with
  | EntryRow id _ _ _ _ _ _ _ | FieldRow id _ _ _ _ _ _ _
  | HeaderRow id _ _ _ _ _ _ _ _ | ChunkRow id _ _ _ _ _ _ _ _
  | PlaceholderRow id _ => id
  end.

(** The swatch column of the header row drawn first by a visit. *)
Definition header_swatch (ev : list Event) : option (option Z) :=
  match ev with
  | Visit _ :: Emit (HeaderRow _ _ _ sw _ _ _ _ _) :: _ => Some sw
  | _ => None
  end.

(** The chunk loop of one array node as it shows in the rows: a chunk
    summary row starting at entry [i], or the load-more placeholder. *)
Inductive Mark : Type := MChunk (i : nat) | MPlaceholder.

Definition own_marks (id : nat) (ev : list Event) : list Mark :=
  flat_map (fun e =>
    match e with
    | Emit (ChunkRow id' i _ _ _ _ _ _ _) => if Nat.eqb id' id then [MChunk i] else []
    | Emit (PlaceholderRow id' _) => if Nat.eqb id' id then [MPlaceholder] else []
    | _ => []
    end) ev.

(** Number of reveal-more actions (double-clicks on the placeholder) of a node. *)
Definition reveals (id : nat) (ev : list Event) : nat :=
  length (List.filter (fun e => match e with
                           | Emit (PlaceholderRow id' true) => Nat.eqb id' id
                           | _ => false end) ev).

(** The display end [getDisplayEnd] would return for a node. *)
Definition displayEndOf (m : DisplayEnds) (id : nat) : Z :=
  match m !! id with Some v => v | None => DisplayEndDefault end.

(** A sequence of frames of one drawer: each draws one pattern. *)
Fixpoint run_draws (calls : list (Ui * Pattern)) (m : DisplayEnds)
    : DisplayEnds * list Event :=
  match calls with
  | [] => (m, [])
  | (u, p) :: r =>
    let '(m1, e1) := draw u p m in
    let '(m2, e2) := run_draws r m1 in
    (m2, e1 ++ e2)
  end.

(** Every array of a tree has at most [2^64 - 1] entries
    ([getEntryCount()] is a u64). *)
Fixpoint counts_fit (p : Pattern) : bool :=
  let all := fix all (l : list Pattern) : bool :=
    match l with [] => true | q :: r => counts_fit q && all r end in
  match p with
  | PArrayDynamic _ es | PArrayStatic _ es =>
      (Z.of_nat (length es) <? 2 ^ 64) && all es
  | PBitfield _ es | PStruct _ es | PUnion _ es => all es
  | PPointer _ q => counts_fit q
  | _ => true
  end.

(** The highlight flag of a row: the [highlightWhenSelected] test of the
    row's label. A placeholder is never highlighted. *)
Definition row_selected (r : Row) : bool :=
  match r with
  | EntryRow _ s _ _ _ _ _ _ | FieldRow _ s _ _ _ _ _ _
  | HeaderRow _ s _ _ _ _ _ _ _ | ChunkRow _ _ _ s _ _ _ _ _ => s
  | PlaceholderRow _ _ => false
  end.

(** The node an event belongs to. *)
Definition event_id (e : Event) : nat :=
  match e with Visit id => id | Emit r => row_id r end.

(** Identities of the non-empty arrays of a subtree: the only nodes whose
    chunk loop runs and calls [getDisplayEnd]. *)
Fixpoint array_ids (p : Pattern) : list nat :=
  match p with
  | PArrayDynamic a es | PArrayStatic a es =>
      (if Nat.eqb (length es) 0 then [] else [a_id a]) ++ flat_map array_ids es
  | PBitfield _ es | PStruct _ es | PUnion _ es => flat_map array_ids es
  | PPointer _ q => array_ids q
  | _ => []
  end.

(** The summary row [chunkBody] draws for the chunk starting at entry [i]. *)
Definition chunkRowAt (u : Ui) (a : Attrs) (entries : list Pattern) (i : nat) : Row :=
  let endIndex := Nat.min (length entries) (i + ChunkSize) in
  let startOffset := a_offset (entryAt entries i) in
  let endOffset := a_offset (entryAt entries (endIndex - 1)) in
  let endSize := a_size (entryAt entries (endIndex - 1)) in
  let chunkSize := wrap64 ((endOffset - startOffset) + endSize) in
  let selected := isPatternSelected u startOffset
                    (wrap64 (((endOffset + endSize) - startOffset) - 1)) in
  ChunkRow (a_id a) i (endIndex - 1) selected (a_color a) startOffset
    (wrap64 (startOffset + chunkSize - (if a_size a =? 0 then 0 else 1)))
    chunkSize (TypeArray (a_typeName a) (endIndex - i)).

(** The chunk summary rows of one array: first entry, last entry, and the
    entry count shown in the type column. *)
Definition own_chunks (id : nat) (ev : list Event) : list (nat * nat * nat) :=
  flat_map (fun e =>
    match e with
    | Emit (ChunkRow id' first last _ _ _ _ _ (TypeArray _ count)) =>
        if Nat.eqb id' id then [(first, last, count)] else []
    | _ => []
    end) ev.

(** The summary row of chunk [j] of an array of [N] entries, as
    (first entry, last entry, entry count). *)
Definition chunkRange (N j : nat) : nat * nat * nat :=
  (50 * j, Nat.min N (50 * j + 50) - 1, Nat.min N (50 * j + 50) - 50 * j)%nat.


(** The requirement [std::sort] puts on its comparator: irreflexive,
    transitive, and incomparability transitive. *)
Definition strict_weak_order {A : Type} (lt : A -> A -> bool) : Prop :=
  (forall x, lt x x = false) /\
  (forall x y z, lt x y = true -> lt y z = true -> lt x z = true) /\
  (forall x y z, lt x y = false -> lt y x = false -> lt y z = false -> lt z y = false ->
                 lt x z = false /\ lt z x = false).

(** The nodes whose visit draws a header row when not inlined: bitfields,
    pointers, structs, unions and non-empty arrays. *)
Definition has_header (p : Pattern) : bool :=
  match p with
  | PArrayDynamic _ es | PArrayStatic _ es => negb (Nat.eqb (length es) 0)
  | PBitfield _ _ | PPointer _ _ | PStruct _ _ | PUnion _ _ => true
  | _ => false
  end.

(* ------------------------------------------------------------------ *)
(** ** The ImGui stacks a frame pushes and pops *)

(** The ImGui stacks the drawer uses: the tree ([TreeNodeEx] without
    [NoTreePushOnOpen] pushes when it returns true, [TreePop] pops), the ID
    stack ([PushID] / [PopID]), the style color stack ([PushStyleColor] /
    [PopStyleColor]) and the indent ([Indent] / [Unindent]). The comment
    tooltip ([BeginTooltip] / [EndTooltip], drawn on hover) is not part of
    this model. *)
Inductive Stack : Type := StTree | StID | StStyle | StIndent.

Inductive Call : Type :=
| Push (s : Stack)
| Pop (s : Stack).

Definition stack_eqb (s t : Stack) : bool :=
  match s, t with
  | StTree, StTree | StID, StID | StStyle, StStyle | StIndent, StIndent => true
  | _, _ => false
  end.

(** A drawing action observed through its stack calls; the display ends
    are threaded as in [D]. *)
Definition Dc : Type := DisplayEnds -> DisplayEnds * list Call.

Definition skipC : Dc := fun m => (m, []).
Definition callsC (l : list Call) : Dc := fun m => (m, l).
Definition seqC (x y : Dc) : Dc :=
  fun m => let '(m1, c1) := x m in let '(m2, c2) := y m1 in (m2, c1 ++ c2).

Fixpoint seq_allC (l : list Dc) : Dc :=
  match l with [] => skipC | x :: r => seqC x (seq_allC r) end.

(** highlightWhenSelected: the style color is pushed around the callback
    when the range is selected. *)
Definition highlightWhenSelectedC (selected : bool) (callback : list Call) : list Call :=
  (if selected then [Push StStyle] else []) ++ callback ++
  (if selected then [Pop StStyle] else []).

(** createLeafNode: [Leaf | NoTreePushOnOpen], nothing is pushed. *)
Definition createLeafNodeC : list Call := [].

(** createTreeNode: a sealed node is indented text; otherwise the
    highlighted [TreeNodeEx], which pushes the tree when open. *)
Definition createTreeNodeC (u : Ui) (a : Attrs) : list Call :=
  if a_sealed a then
    [Push StIndent] ++ highlightWhenSelectedC (selectedA u a) [] ++ [Pop StIndent]
  else
    highlightWhenSelectedC (selectedA u a)
      (if ui_node_open u (a_id a) then [Push StTree] else []).

(** makeSelectable: two IDs pushed, then both popped. *)
Definition makeSelectableC : list Call := [Push StID; Push StID; Pop StID; Pop StID].

Definition drawNameColumnC (u : Ui) (a : Attrs) : list Call :=
  highlightWhenSelectedC (selectedA u a) [].

(** createDefaultEntry; visit(PatternEnum&) and visit(PatternBitfieldField&)
    make the same stack calls. *)
Definition createDefaultEntryC (u : Ui) (a : Attrs) : Dc :=
  callsC (createLeafNodeC ++ makeSelectableC ++ drawNameColumnC u a).

Definition visitEnumC (u : Ui) (a : Attrs) : Dc :=
  callsC (createLeafNodeC ++ makeSelectableC ++ drawNameColumnC u a).

Definition visitBitfieldFieldC (u : Ui) (a : Attrs) : Dc :=
  callsC (createLeafNodeC ++ makeSelectableC ++ drawNameColumnC u a).

(** The bitfield, pointer, struct and union visitors: the header unless
    inlined; when open the children, then [TreePop] unless inlined. *)
Definition drawCompositeC (u : Ui) (a : Attrs) (children : Dc) : Dc :=
  let open_ := if a_inlined a then true else createTreeNode u a in
  seqC (if a_inlined a then skipC else callsC (createTreeNodeC u a ++ makeSelectableC))
       (if open_ then seqC children (if a_inlined a then skipC else callsC [Pop StTree])
        else skipC).

(** One chunk of drawArray: the highlighted chunk [TreeNodeEx]; when open
    the entries, then [TreePop]. *)
Definition chunkBodyC (u : Ui) (a : Attrs) (entries : list Pattern) (draws : list Dc)
    (i : nat) : Dc :=
  let endIndex := Nat.min (length entries) (i + ChunkSize) in
  let startOffset := a_offset (entryAt entries i) in
  let endOffset := a_offset (entryAt entries (endIndex - 1)) in
  let endSize := a_size (entryAt entries (endIndex - 1)) in
  let selected := isPatternSelected u startOffset
                    (wrap64 (((endOffset + endSize) - startOffset) - 1)) in
  let chunkOpen := ui_chunk_open u (a_id a) i in
  seqC (callsC (highlightWhenSelectedC selected (if chunkOpen then [Push StTree] else [])))
       (if chunkOpen
        then seqC (seq_allC (firstn (endIndex - i) (skipn i draws))) (callsC [Pop StTree])
        else skipC).

(** The chunk loop of drawArray; the placeholder [Selectable] pushes
    nothing. *)
Fixpoint chunkLoopC (u : Ui) (a : Attrs) (entries : list Pattern) (draws : list Dc)
    (fuel : nat) (i : nat) (chunkCount : Z) : Dc :=
  match fuel with
  | O => skipC
  | S fuel' =>
    if Nat.ltb i (length entries) then
      fun m =>
        let chunkCount' := chunkCount + 1 in
        let '(displayEnd, m1) := getDisplayEnd (a_id a) m in
        if displayEnd <? chunkCount' then
          let clicked := ui_reveal_click u (a_id a) in
          ((if clicked then <[a_id a := wrap64 (displayEnd + DisplayEndStep)]> m1 else m1),
           [])
        else
          seqC (chunkBodyC u a entries draws i)
               (chunkLoopC u a entries draws fuel' (i + ChunkSize) chunkCount') m1
    else skipC
  end.

(** drawArray: the header unless inlined; when open the chunk loop, then
    [TreePop] unless inlined. *)
Definition drawArrayC (u : Ui) (a : Attrs) (entries : list Pattern) (draws : list Dc)
    (isInlined : bool) : Dc :=
  if Nat.eqb (length entries) 0 then skipC else
  let open_ := if isInlined then true else createTreeNode u a in
  seqC (if isInlined then skipC else callsC (createTreeNodeC u a ++ makeSelectableC))
       (if open_ then seqC (chunkLoopC u a entries draws (length entries) 0 0)
                           (if isInlined then skipC else callsC [Pop StTree])
        else skipC).

(** [pattern.accept] observed through its stack calls. *)
Fixpoint acceptC (u : Ui) (p : Pattern) {struct p} : Dc :=
  let drawAll := fix drawAll (l : list Pattern) : list Dc :=
    match l with
    | [] => []
    | q :: r => (if a_hidden (attrs_of q) then skipC else acceptC u q) :: drawAll r
    end in
  match p with
  | PArrayDynamic a es => drawArrayC u a es (drawAll es) (a_inlined a)
  | PArrayStatic a es => drawArrayC u a es (drawAll es) (a_inlined a)
  | PBitfield a fs => drawCompositeC u a (seq_allC (drawAll fs))
  | PBitfieldField a _ _ => visitBitfieldFieldC u a
  | PBoolean a | PCharacter a | PFloat a | PSigned a | PUnsigned a
  | PWideCharacter a => createDefaultEntryC u a
  | PEnum a => visitEnumC u a
  | PPadding _ => skipC
  | PPointer a q => drawCompositeC u a (acceptC u q)
  | PString a | PWideString a => if 0 <? a_size a then createDefaultEntryC u a else skipC
  | PStruct a ms => drawCompositeC u a (seq_allC (drawAll ms))
  | PUnion a ms => drawCompositeC u a (seq_allC (drawAll ms))
  end.

Definition drawC (u : Ui) (p : Pattern) : Dc :=
  if a_hidden (attrs_of p) then skipC else acceptC u p.

(** PatternDrawer::draw(patterns): each pattern of the table in turn. *)
Definition drawAllTopC (u : Ui) (ps : list Pattern) : Dc :=
  seq_allC (map (drawC u) ps).

(** The depth of one stack after a call sequence, from depth [d]; [None]
    when a pop finds the stack empty. *)
Fixpoint depthAfter (s : Stack) (d : nat) (l : list Call) : option nat :=
  match l with
  | [] => Some d
  | Push t :: r => if stack_eqb s t then depthAfter s (S d) r else depthAfter s d r
  | Pop t :: r =>
    if stack_eqb s t then
      match d with O => None | S d' => depthAfter s d' r end
    else depthAfter s d r
  end.

(** Every stack ends at the depth it started from and is never popped
    below it. *)
Definition balanced (l : list Call) : Prop := forall s d, depthAfter s d l = Some d.

(* ------------------------------------------------------------------ *)
(** ** Test fixtures *)

Definition node (id : nat) (offset size : Z) : Attrs :=
  mkAttrs id offset size EmptyString EmptyString EmptyString EmptyString EmptyString
    (LBool false) 0 EmptyString false false false.

Definition hideA (a : Attrs) : Attrs :=
  mkAttrs (a_id a) (a_offset a) (a_size a) (a_displayName a) (a_variableName a)
    (a_typeName a) (a_formattedName a) (a_formattedValue a) (a_value a) (a_color a)
    (a_comment a) true (a_sealed a) (a_inlined a).

(** A frame where every tree node is expanded and nothing is clicked. *)
Definition uiOpen (sel : option Region) (click : bool) : Ui :=
  mkUi sel (fun _ => true) (fun _ _ => true) (fun _ => click).

(** An array with id 1 of [n] u8 entries with ids 100, 101, ... *)
Definition u8s (n : nat) : list Pattern :=
  map (fun k => PUnsigned (node (100 + k) (Z.of_nat k) 1)) (seq 0 n).

Definition arr120 : Pattern := PArrayStatic (node 1 0 120) (u8s 120).

(** An array of 2550 entries, i.e. 51 chunks: one more than the initial
    display end, so the first draw shows a placeholder. *)
Definition arr2550 : Pattern := PArrayStatic (node 1 0 2550) (u8s 2550).

(** The node is expanded, its chunks are collapsed, and every placeholder is
    double-clicked. *)
Definition uiReveal : Ui := mkUi None (fun _ => true) (fun _ _ => false) (fun _ => true).

Definition revealCall : list (Ui * Pattern) := [(uiReveal, arr2550)].

(** Three sibling scalars at offsets 10, 5 and 20. *)
Definition n10 : Pattern := PUnsigned (node 10 10 1).
Definition n5 : Pattern := PUnsigned (node 5 5 1).
Definition n20 : Pattern := PUnsigned (node 20 20 1).

Definition offsetAscending : SortSpec := mkSortSpec "offset" ImGuiSortDirection_Ascending.

(** A [std::sort] instance for the examples: insertion sort counting its
    comparator calls. *)
Fixpoint insert_count {A : Type} (comp : A -> A -> bool) (x : A) (l : list A)
    : list A * nat :=
  match l with
  | [] => ([x], O)
  | y :: r =>
    if comp x y then (x :: y :: r, 1%nat)
    else let '(r', n) := insert_count comp x r in (y :: r', S n)
  end.

Fixpoint isort_count {A : Type} (comp : A -> A -> bool) (l : list A) : list A * nat :=
  match l with
  | [] => ([], O)
  | x :: r =>
    let '(r', n1) := isort_count comp r in
    let '(l', n2) := insert_count comp x r' in
    (l', (n1 + n2)%nat)
  end.

(** A hidden struct whose member is not hidden. *)
Definition hiddenStruct : Pattern :=
  PStruct (hideA (node 2 0 4)) [PUnsigned (node 3 0 4)].

(** A pointer (not sealed, not inlined) to a hidden u64, and a struct with
    the same hidden member. *)
Definition hiddenU64 : Pattern := PUnsigned (hideA (node 6 0 8)).
Definition ptrToHidden : Pattern := PPointer (node 5 16 8) hiddenU64.
Definition structWithHidden : Pattern := PStruct (node 7 0 8) [hiddenU64].

(** A bitfield and a pointer, neither sealed nor inlined. *)
Definition colored (a : Attrs) (c : Z) : Attrs :=
  mkAttrs (a_id a) (a_offset a) (a_size a) (a_displayName a) (a_variableName a)
    (a_typeName a) (a_formattedName a) (a_formattedValue a) (a_value a) c
    (a_comment a) (a_hidden a) (a_sealed a) (a_inlined a).

Definition ptrOpen : Pattern := PPointer (colored (node 8 0 8) 255) (PUnsigned (node 9 8 4)).
Definition bitfieldOpen : Pattern :=
  PBitfield (colored (node 11 0 1) 255) [PBitfieldField (node 12 0 1) 0 3].

(** Three floating-point values; [PrimFloat.nan] is what a NaN double in the
    data reads as. *)
Definition withValue (id : nat) (v : Literal) : Pattern :=
  PFloat (mkAttrs id 0 8 EmptyString EmptyString EmptyString EmptyString EmptyString
            v 0 EmptyString false false false).

Definition sealA (a : Attrs) : Attrs :=
  mkAttrs (a_id a) (a_offset a) (a_size a) (a_displayName a) (a_variableName a)
    (a_typeName a) (a_formattedName a) (a_formattedValue a) (a_value a) (a_color a)
    (a_comment a) (a_hidden a) true (a_inlined a).

Definition inlineA (a : Attrs) : Attrs :=
  mkAttrs (a_id a) (a_offset a) (a_size a) (a_displayName a) (a_variableName a)
    (a_typeName a) (a_formattedName a) (a_formattedValue a) (a_value a) (a_color a)
    (a_comment a) (a_hidden a) (a_sealed a) true.

(** A sealed struct, and a sealed and inlined one, each with one member. *)
Definition sealedStruct : Pattern := PStruct (sealA (node 20 0 4)) [PUnsigned (node 21 0 4)].
Definition inlinedSealedStruct : Pattern :=
  PStruct (inlineA (sealA (node 22 0 4))) [PUnsigned (node 23 0 4)].

(* ------------------------------------------------------------------ *)
(** ** Basic facts *)

Lemma seqD_eq (x y : D) (m : DisplayEnds) :
  (x ;; y) m = (fst (y (fst (x m))), snd (x m) ++ snd (y (fst (x m)))).
Proof. unfold seqD. destruct (x m) as [m1 e1]. cbn. destruct (y m1). reflexivity. Qed.

(** The children loops of [accept] are [map (draw u)]. *)
Lemma accept_array_dynamic (u : Ui) (a : Attrs) (es : list Pattern) :
  accept u (PArrayDynamic a es) =
  (emit (Visit (a_id a)) ;; drawArray u a es (map (draw u) es) (a_inlined a)).
Proof. reflexivity. Qed.

Lemma accept_array_static (u : Ui) (a : Attrs) (es : list Pattern) :
  accept u (PArrayStatic a es) =
  (emit (Visit (a_id a)) ;; drawArray u a es (map (draw u) es) (a_inlined a)).
Proof. reflexivity. Qed.

Lemma accept_bitfield (u : Ui) (a : Attrs) (es : list Pattern) :
  accept u (PBitfield a es) = (emit (Visit (a_id a)) ;; visitBitfield u a (map (draw u) es)).
Proof. reflexivity. Qed.

Lemma accept_struct (u : Ui) (a : Attrs) (es : list Pattern) :
  accept u (PStruct a es) = (emit (Visit (a_id a)) ;; visitStruct u a (map (draw u) es)).
Proof. reflexivity. Qed.

Lemma accept_union (u : Ui) (a : Attrs) (es : list Pattern) :
  accept u (PUnion a es) = (emit (Visit (a_id a)) ;; visitUnion u a (map (draw u) es)).
Proof. reflexivity. Qed.

Lemma accept_pointer (u : Ui) (a : Attrs) (q : Pattern) :
  accept u (PPointer a q) = (emit (Visit (a_id a)) ;; visitPointer u a (accept u q)).
Proof. reflexivity. Qed.

Lemma ids_of_children (p : Pattern) :
  ids_of p = a_id (attrs_of p) :: flat_map ids_of (children p).
Proof. destruct p; try reflexivity. cbn. rewrite app_nil_r. reflexivity. Qed.

Lemma own_marks_app (id : nat) (l1 l2 : list Event) :
  own_marks id (l1 ++ l2) = own_marks id l1 ++ own_marks id l2.
Proof. apply flat_map_app. Qed.

(** *** Frame: drawing a subtree that does not contain a node leaves that
    node's display end and chunk rows alone. *)

Definition frames (id : nat) (x : D) : Prop :=
  forall m, fst (x m) !! id = m !! id /\ own_marks id (snd (x m)) = [].

Lemma frames_skip (id : nat) : frames id skip.
Proof. intros m. split; reflexivity. Qed.

Lemma frames_emit (id : nat) (e : Event) : own_marks id [e] = [] -> frames id (emit e).
Proof. intros H m. split; [reflexivity | exact H]. Qed.

Lemma frames_seq (id : nat) (x y : D) : frames id x -> frames id y -> frames id (x ;; y).
Proof.
  intros Hx Hy m. rewrite seqD_eq. cbn [fst snd].
  destruct (Hx m) as [Hx1 Hx2]. destruct (Hy (fst (x m))) as [Hy1 Hy2].
  split; [congruence|]. rewrite own_marks_app, Hx2, Hy2. reflexivity.
Qed.

Lemma frames_seq_all (id : nat) (l : list D) : Forall (frames id) l -> frames id (seq_all l).
Proof.
  induction 1; cbn [seq_all]; [apply frames_skip | apply frames_seq; assumption].
Qed.


Lemma frames_chunkLoop (u : Ui) (a : Attrs) (es : list Pattern) (draws : list D) (id : nat) :
  a_id a <> id -> Forall (frames id) draws ->
  forall fuel i cc, frames id (chunkLoop u a es draws fuel i cc).
Proof.
  intros Hne Hd. induction fuel as [|fuel IH]; intros i cc m; cbn [chunkLoop].
  { split; reflexivity. }
  destruct (Nat.ltb i (length es)); [|split; reflexivity].
  assert (Hm1 : snd (getDisplayEnd (a_id a) m) !! id = m !! id).
  { unfold getDisplayEnd. destruct (m !! a_id a); [reflexivity|].
    cbn. rewrite lookup_insert_ne by congruence. reflexivity. }
  destruct (getDisplayEnd (a_id a) m) as [displayEnd m1] eqn:Hg. cbn in Hm1.
  assert (Hneb : Nat.eqb (a_id a) id = false) by (apply Nat.eqb_neq; exact Hne).
  destruct (displayEnd <? cc + 1).
  - cbn. rewrite Hneb. split; [|reflexivity].
    destruct (ui_reveal_click u (a_id a)); [|exact Hm1].
    rewrite lookup_insert_ne by congruence. exact Hm1.
  - assert (Hb : frames id (chunkBody u a es draws i ;;
                             chunkLoop u a es draws fuel (i + ChunkSize) (cc + 1))).
    { apply frames_seq; [|apply IH]. unfold chunkBody.
      apply frames_seq.
      - apply frames_emit. cbn. rewrite Hneb. reflexivity.
      - destruct (ui_chunk_open u (a_id a) i); [|apply frames_skip].
        apply frames_seq_all. apply Forall_take, Forall_drop, Hd. }
    destruct (Hb m1) as [H1 H2]. split; [congruence | exact H2].
Qed.

Lemma frames_accept (u : Ui) (id : nat) (p : Pattern) :
  ~ In id (ids_of p) -> frames id (accept u p) /\ frames id (draw u p).
Proof.
  revert p.
  apply (Pattern_children_ind (fun p => ~ In id (ids_of p) ->
           frames id (accept u p) /\ frames id (draw u p))).
  intros p IH Hid.
  rewrite ids_of_children in Hid.
  assert (Hne : a_id (attrs_of p) <> id) by (intros E; apply Hid; left; exact E).
  assert (Hch : Forall (frames id) (map (draw u) (children p))).
  { apply List.Forall_forall. intros x Hx. apply in_map_iff in Hx as (q & <- & Hq).
    apply (IH q Hq). intros Hin. apply Hid. right. apply in_flat_map. eauto. }
  assert (Hacc : frames id (accept u p)).
  { destruct p; cbn [children attrs_of] in Hch, Hne;
      rewrite ?accept_array_dynamic, ?accept_array_static, ?accept_bitfield,
              ?accept_struct, ?accept_union, ?accept_pointer;
      apply frames_seq; try (apply frames_emit; reflexivity);
      cbn [accept];
      unfold drawArray, visitBitfield, visitStruct, visitUnion, visitPointer,
             drawComposite, createDefaultEntry, visitEnum, visitBitfieldField;
      repeat match goal with
             | |- frames _ (_ ;; _) => apply frames_seq
             | |- frames _ (if ?b then _ else _) => destruct b
             | |- frames _ skip => apply frames_skip
             | |- frames _ (emit _) => apply frames_emit; reflexivity
             | |- frames _ (seq_all _) => apply frames_seq_all; assumption
             | |- frames _ (chunkLoop _ _ _ _ _ _ _) => apply frames_chunkLoop; assumption
             end.
    (* the pointee *)
    inversion Hch as [|? ? Hq _]. subst.
    apply (IH p (or_introl eq_refl)). intros Hin. apply Hid. right. cbn.
    rewrite app_nil_r. exact Hin. }
  split; [exact Hacc|]. unfold draw. destruct (a_hidden (attrs_of p)); [apply frames_skip | exact Hacc].
Qed.

Lemma getDisplayEnd_spec (id : nat) (m : DisplayEnds) :
  fst (getDisplayEnd id m) = displayEndOf m id /\
  snd (getDisplayEnd id m) !! id = Some (displayEndOf m id) /\
  (forall id', id' <> id -> snd (getDisplayEnd id m) !! id' = m !! id').
Proof.
  unfold getDisplayEnd, displayEndOf. destruct (m !! id) eqn:E; cbn.
  - auto.
  - rewrite lookup_insert_eq. split; [reflexivity|split; [reflexivity|]].
    intros id' Hne. apply lookup_insert_ne. congruence.
Qed.

Lemma displayEndOf_same (m m' : DisplayEnds) (id : nat) :
  m' !! id = m !! id -> displayEndOf m' id = displayEndOf m id.
Proof. unfold displayEndOf. intros ->. reflexivity. Qed.

Ltac nat_div50 N :=
  pose proof (Nat.div_mod (N + 49) 50 ltac:(discriminate));
  pose proof (Nat.mod_upper_bound (N + 49) 50 ltac:(discriminate)).

(** *** The chunk loop of an array, seen through its own rows. *)

Lemma chunkBody_marks (u : Ui) (a : Attrs) (es : list Pattern) (draws : list D) (i : nat)
    (m : DisplayEnds) :
  Forall (frames (a_id a)) draws ->
  own_marks (a_id a) (snd (chunkBody u a es draws i m)) = [MChunk i] /\
  fst (chunkBody u a es draws i m) !! a_id a = m !! a_id a.
Proof.
  intros Hd. unfold chunkBody. rewrite seqD_eq. cbn [fst snd emit].
  rewrite own_marks_app.
  assert (Hf : frames (a_id a)
     (if ui_chunk_open u (a_id a) i
      then seq_all (firstn (Nat.min (length es) (i + ChunkSize) - i) (skipn i draws))
      else skip)).
  { destruct (ui_chunk_open u (a_id a) i); [|apply frames_skip].
    apply frames_seq_all. apply Forall_take, Forall_drop, Hd. }
  destruct (Hf m) as [H1 H2]. rewrite H2. cbn. rewrite Nat.eqb_refl. auto.
Qed.

Lemma chunkLoop_marks (u : Ui) (a : Attrs) (es : list Pattern) (draws : list D) :
  Forall (frames (a_id a)) draws ->
  forall fuel k m,
  0 <= displayEndOf m (a_id a) ->
  (k <= Z.to_nat (displayEndOf m (a_id a)))%nat ->
  ((length es + 49) / 50 <= k + fuel)%nat ->
  own_marks (a_id a) (snd (chunkLoop u a es draws fuel (50 * k) (Z.of_nat k) m)) =
  map (fun j => MChunk (50 * j))
      (seq k (Nat.min ((length es + 49) / 50) (Z.to_nat (displayEndOf m (a_id a))) - k)) ++
  (if Nat.ltb (Z.to_nat (displayEndOf m (a_id a))) ((length es + 49) / 50)
   then [MPlaceholder] else []).
Proof.
  intros Hd fuel. induction fuel as [|fuel IH]; intros k m Hpos Hk Hfuel;
    set (N := length es) in *; nat_div50 N.
  - cbn [chunkLoop skip snd own_marks flat_map].
    replace (Nat.min _ _ - k)%nat with O by lia.
    replace (Nat.ltb _ _) with false by (symmetry; apply Nat.ltb_ge; lia). reflexivity.
  - cbn [chunkLoop]. destruct (Nat.ltb (50 * k) (length es)) eqn:Hlt.
    2:{ apply Nat.ltb_ge in Hlt. fold N in Hlt. cbn [skip snd own_marks flat_map].
        replace (Nat.min _ _ - k)%nat with O by lia.
        replace (Nat.ltb _ _) with false by (symmetry; apply Nat.ltb_ge; lia). reflexivity. }
    apply Nat.ltb_lt in Hlt. fold N in Hlt.
    destruct (getDisplayEnd_spec (a_id a) m) as (Hg1 & Hg2 & _).
    destruct (getDisplayEnd (a_id a) m) as [displayEnd m1]. cbn in Hg1, Hg2. subst displayEnd.
    destruct (displayEndOf m (a_id a) <? Z.of_nat k + 1) eqn:Hc.
    + apply Z.ltb_lt in Hc. cbn [snd own_marks flat_map]. rewrite Nat.eqb_refl.
      replace (Nat.min _ _ - k)%nat with O by lia.
      replace (Nat.ltb _ _) with true by (symmetry; apply Nat.ltb_lt; lia). reflexivity.
    + apply Z.ltb_ge in Hc. rewrite seqD_eq. cbn [snd]. rewrite own_marks_app.
      destruct (chunkBody_marks u a es draws (50 * k) m1 Hd) as [Hb1 Hb2].
      rewrite Hb1.
      assert (Hm2 : displayEndOf (fst (chunkBody u a es draws (50 * k) m1)) (a_id a)
                    = displayEndOf m (a_id a)).
      { unfold displayEndOf at 1. rewrite Hb2, Hg2. reflexivity. }
      replace (50 * k + ChunkSize)%nat with (50 * S k)%nat by (unfold ChunkSize; lia).
      replace (Z.of_nat k + 1) with (Z.of_nat (S k)) by lia.
      rewrite IH by (rewrite ?Hm2; lia). rewrite Hm2.
      replace (Nat.min ((N + 49) / 50) (Z.to_nat (displayEndOf m (a_id a))) - k)%nat
        with (S (Nat.min ((N + 49) / 50) (Z.to_nat (displayEndOf m (a_id a))) - S k))
        by lia.
      reflexivity.
Qed.

(** *** Growth: the display ends only move by reveal steps. *)

Definition in_range (m : DisplayEnds) : Prop :=
  map_Forall (fun _ v => 0 <= v < 2 ^ 64) m.

Definition grows (x : D) : Prop :=
  forall m, in_range m ->
    in_range (fst (x m)) /\
    forall id,
      displayEndOf (fst (x m)) id = displayEndOf m id + 50 * Z.of_nat (reveals id (snd (x m))) /\
      (m !! id <> None -> fst (x m) !! id <> None).

Lemma reveals_app (id : nat) (l1 l2 : list Event) :
  reveals id (l1 ++ l2) = (reveals id l1 + reveals id l2)%nat.
Proof. unfold reveals. rewrite List.filter_app, List.length_app. reflexivity. Qed.

Lemma grows_skip : grows skip.
Proof. intros m Hm. split; [exact Hm|]. intros id. cbn. split; [lia | auto]. Qed.

Lemma grows_emit (e : Event) : (forall id, reveals id [e] = O) -> grows (emit e).
Proof.
  intros He m Hm. split; [exact Hm|]. intros id. cbn [emit fst snd]. rewrite He.
  split; [lia | auto].
Qed.

Lemma grows_seq (x y : D) : grows x -> grows y -> grows (x ;; y).
Proof.
  intros Hx Hy m Hm. rewrite seqD_eq. cbn [fst snd].
  destruct (Hx m Hm) as [Hm1 Hx1]. destruct (Hy _ Hm1) as [Hm2 Hy1].
  split; [exact Hm2|]. intros id.
  destruct (Hx1 id) as [E1 D1]. destruct (Hy1 id) as [E2 D2].
  rewrite reveals_app. split; [rewrite E2, E1; lia | auto].
Qed.

Lemma grows_seq_all (l : list D) : Forall grows l -> grows (seq_all l).
Proof. induction 1; cbn [seq_all]; [apply grows_skip | apply grows_seq; assumption]. Qed.

Lemma getDisplayEnd_grows (id0 : nat) (m : DisplayEnds) :
  in_range m ->
  in_range (snd (getDisplayEnd id0 m)) /\
  0 <= fst (getDisplayEnd id0 m) < 2 ^ 64 /\
  (forall id, displayEndOf (snd (getDisplayEnd id0 m)) id = displayEndOf m id /\
              (m !! id <> None -> snd (getDisplayEnd id0 m) !! id <> None)).
Proof.
  intros Hm. unfold getDisplayEnd, displayEndOf.
  destruct (m !! id0) as [v|] eqn:E; cbn [fst snd].
  - split; [exact Hm|]. split; [exact (Hm id0 v E)|]. intros id. split; auto.
  - split; [apply map_Forall_insert_2; [unfold DisplayEndDefault; lia | exact Hm]|].
    split; [unfold DisplayEndDefault; lia|].
    intros id. destruct (decide (id = id0)) as [->|Hne].
    + rewrite lookup_insert_eq, E. split; [reflexivity | congruence].
    + rewrite lookup_insert_ne by congruence. split; [reflexivity | auto].
Qed.

Lemma grows_chunkLoop (u : Ui) (a : Attrs) (es : list Pattern) (draws : list D) :
  Z.of_nat (length es) < 2 ^ 64 -> Forall grows draws ->
  forall fuel k, grows (chunkLoop u a es draws fuel (50 * k) (Z.of_nat k)).
Proof.
  intros HN Hd fuel. induction fuel as [|fuel IH]; intros k; [apply grows_skip|].
  intros m Hm. cbn [chunkLoop].
  destruct (Nat.ltb (50 * k) (length es)) eqn:Hlt; [|apply grows_skip; exact Hm].
  apply Nat.ltb_lt in Hlt.
  destruct (getDisplayEnd_grows (a_id a) m Hm) as (Hm1 & Hv & Hg).
  destruct (getDisplayEnd (a_id a) m) as [displayEnd m1] eqn:Hgd. cbn [fst snd] in Hm1, Hv, Hg.
  assert (HdE : displayEnd = displayEndOf m (a_id a)).
  { pose proof (getDisplayEnd_spec (a_id a) m) as [Hs _]. rewrite Hgd in Hs. exact Hs. }
  destruct (displayEnd <? Z.of_nat k + 1) eqn:Hc.
  - apply Z.ltb_lt in Hc.
    assert (Hw : wrap64 (displayEnd + DisplayEndStep) = displayEnd + 50).
    { unfold wrap64, DisplayEndStep. apply Z.mod_small. lia. }
    destruct (ui_reveal_click u (a_id a)) eqn:Hclick; cbn [fst snd]; rewrite ?Hw.
    + split; [apply map_Forall_insert_2; [lia | exact Hm1]|].
      intros id. unfold reveals. cbn [List.filter length Z.of_nat].
      destruct (decide (id = a_id a)) as [->|Hne].
      * rewrite Nat.eqb_refl. unfold displayEndOf at 1. rewrite lookup_insert_eq.
        replace (Z.of_nat (length _)) with 1 by reflexivity.
        split; [lia | congruence].
      * rewrite (proj2 (Nat.eqb_neq _ _) (not_eq_sym Hne)).
        unfold displayEndOf at 1. rewrite lookup_insert_ne by congruence.
        destruct (Hg id) as [E1 D1]. fold (displayEndOf m1 id).
        replace (Z.of_nat (length _)) with 0 by reflexivity.
        split; [lia | auto].
    + split; [exact Hm1|]. intros id. unfold reveals. cbn [List.filter length Z.of_nat].
      destruct (Hg id) as [E1 D1].
      split; [lia | auto].
  - assert (Hb : grows (chunkBody u a es draws (50 * k) ;;
                        chunkLoop u a es draws fuel (50 * k + ChunkSize) (Z.of_nat k + 1))).
    { apply grows_seq.
      - unfold chunkBody. apply grows_seq; [apply grows_emit; reflexivity|].
        destruct (ui_chunk_open u (a_id a) (50 * k)); [|apply grows_skip].
        apply grows_seq_all. apply Forall_take, Forall_drop, Hd.
      - replace (50 * k + ChunkSize)%nat with (50 * S k)%nat by (unfold ChunkSize; lia).
        replace (Z.of_nat k + 1) with (Z.of_nat (S k)) by lia. apply IH. }
    destruct (Hb m1 Hm1) as [Hm2 Hb2]. split; [exact Hm2|].
    intros id. destruct (Hb2 id) as [E2 D2]. destruct (Hg id) as [E1 D1].
    split; [rewrite E2, E1; reflexivity | auto].
Qed.

Lemma counts_fit_children (p : Pattern) :
  counts_fit p = true -> forall q, In q (children p) -> counts_fit q = true.
Proof.
  intros Hc q Hq.
  assert (Hall : forall l, forallb counts_fit l = true -> In q l -> counts_fit q = true).
  { intros l Hl Hin. rewrite forallb_forall in Hl. auto. }
  destruct p; cbn [children] in Hq; try contradiction;
    try (apply (Hall _ Hc Hq));
    try (apply andb_true_iff in Hc as [_ Hc]; apply (Hall _ Hc Hq)).
  destruct Hq as [<-|[]]. exact Hc.
Qed.

Lemma grows_accept (u : Ui) (p : Pattern) :
  counts_fit p = true -> grows (accept u p) /\ grows (draw u p).
Proof.
  revert p.
  apply (Pattern_children_ind (fun p => counts_fit p = true ->
           grows (accept u p) /\ grows (draw u p))).
  intros p IH Hc.
  assert (Hch : Forall grows (map (draw u) (children p))).
  { apply List.Forall_forall. intros x Hx. apply in_map_iff in Hx as (q & <- & Hq).
    apply (IH q Hq). exact (counts_fit_children p Hc q Hq). }
  assert (Hacc : grows (accept u p)).
  { destruct p; cbn [children] in Hch;
      rewrite ?accept_array_dynamic, ?accept_array_static, ?accept_bitfield,
              ?accept_struct, ?accept_union, ?accept_pointer;
      apply grows_seq; try (apply grows_emit; reflexivity);
      cbn [accept];
      unfold drawArray, visitBitfield, visitStruct, visitUnion, visitPointer,
             drawComposite, createDefaultEntry, visitEnum, visitBitfieldField;
      repeat match goal with
             | |- grows (_ ;; _) => apply grows_seq
             | |- grows (if ?b then _ else _) => destruct b
             | |- grows skip => apply grows_skip
             | |- grows (emit _) => apply grows_emit; reflexivity
             | |- grows (seq_all _) => apply grows_seq_all; assumption
             | |- grows (chunkLoop _ _ _ _ _ _ _) =>
                 apply (grows_chunkLoop _ _ _ _
                          ltac:(cbn [counts_fit] in Hc; apply andb_true_iff in Hc as [Hc _];
                                apply Z.ltb_lt; exact Hc)
                          Hch _ 0)
             end.
    (* the pointee *)
    apply (IH p (or_introl eq_refl)). exact Hc. }
  split; [exact Hacc|]. unfold draw. destruct (a_hidden (attrs_of p)); [apply grows_skip | exact Hacc].
Qed.

Lemma run_draws_grows (calls : list (Ui * Pattern)) :
  Forall (fun c => counts_fit (snd c) = true) calls ->
  forall m, in_range m ->
    in_range (fst (run_draws calls m)) /\
    forall id,
      displayEndOf (fst (run_draws calls m)) id =
        displayEndOf m id + 50 * Z.of_nat (reveals id (snd (run_draws calls m))) /\
      (m !! id <> None -> fst (run_draws calls m) !! id <> None).
Proof.
  induction 1 as [|[u p] calls Hp Hcalls IH]; intros m Hm.
  - cbn. split; [exact Hm|]. intros id. split; [lia | auto].
  - cbn [run_draws]. cbn [snd] in Hp.
    destruct (proj2 (grows_accept u p Hp) m Hm) as [Hm1 H1].
    destruct (draw u p m) as [m1 e1] eqn:E. cbn [fst snd] in Hm1, H1.
    destruct (IH m1 Hm1) as [Hm2 H2].
    destruct (run_draws calls m1) as [m2 e2]. cbn [fst snd] in *.
    split; [exact Hm2|]. intros id.
    destruct (H1 id) as [E1 D1]. destruct (H2 id) as [E2 D2].
    rewrite reveals_app. split; [rewrite E2, E1; lia | auto].
Qed.

Lemma run_draws_app (c1 c2 : list (Ui * Pattern)) (m : DisplayEnds) :
  fst (run_draws (c1 ++ c2) m) = fst (run_draws c2 (fst (run_draws c1 m))).
Proof.
  revert m. induction c1 as [|[u p] c1 IH]; intros m; [reflexivity|].
  cbn [app run_draws]. destruct (draw u p m) as [m1 e1].
  specialize (IH m1).
  destruct (run_draws (c1 ++ c2) m1) as [ma ea]. destruct (run_draws c1 m1) as [mb eb].
  exact IH.
Qed.

(* ------------------------------------------------------------------ *)
(** ** Claims *)

(** C3: [draw] of a hidden node emits nothing and leaves the display-end map
    unchanged: no row, and no node of its subtree is visited, even when the
    descendants are not hidden themselves. *)
Theorem draw_hidden_skips (u : Ui) (p : Pattern) (m : DisplayEnds) :
  a_hidden (attrs_of p) = true ->
  draw u p m = (m, []) /\ rows_of (snd (draw u p m)) = [] /\
  (forall id, In id (ids_of p) -> ~ In (Visit id) (snd (draw u p m))).
Proof.
  intros H. unfold draw. rewrite H. cbn. split; [reflexivity|]. split; [reflexivity|].
  intros id _ [].
Qed.

Lemma draw_hidden_skips_witness :
  a_hidden (attrs_of hiddenStruct) = true /\
  draw (uiOpen None false) hiddenStruct ∅ = (∅, []).
Proof.
  split; [reflexivity|].
  exact (proj1 (draw_hidden_skips (uiOpen None false) hiddenStruct ∅ eq_refl)).
Defined.

(** C6: visiting a string or a wide string emits no row when its size is 0
    and exactly one default-entry row when its size is greater than 0; the
    display-end map is untouched. *)
Theorem string_visit_rows (u : Ui) (a : Attrs) (m : DisplayEnds) :
  accept u (PString a) m =
    (m, Visit (a_id a) :: (if 0 <? a_size a then [Emit (defaultEntryRow u a)] else [])) /\
  accept u (PWideString a) m =
    (m, Visit (a_id a) :: (if 0 <? a_size a then [Emit (defaultEntryRow u a)] else [])) /\
  rows_of (snd (accept u (PString a) m)) =
    (if 0 <? a_size a then [defaultEntryRow u a] else []) /\
  rows_of (snd (accept u (PWideString a) m)) =
    (if 0 <? a_size a then [defaultEntryRow u a] else []).
Proof.
  cbn. destruct (0 <? a_size a); repeat split.
Qed.

(** C10: an array (dynamic or static) without entries emits no row at all,
    whatever its inlined, sealed or selection state, and leaves the
    display-end map unchanged. *)
Theorem empty_array_no_rows (u : Ui) (a : Attrs) (m : DisplayEnds) :
  fst (draw u (PArrayDynamic a []) m) = m /\
  rows_of (snd (draw u (PArrayDynamic a []) m)) = [] /\
  fst (draw u (PArrayStatic a []) m) = m /\
  rows_of (snd (draw u (PArrayStatic a []) m)) = [].
Proof.
  unfold draw. cbn. destruct (a_hidden a); repeat split.
Qed.

(** C9: a node is drawn as selected exactly when a selection exists and the
    node's bytes [offset, offset+size) share a byte with it; a node of size 0
    is never selected. [100,110) is selected under [105,108) and not under
    [0,10). *)
Theorem pattern_selected_iff :
  (forall (u : Ui) (off size : Z),
     isPatternSelected u off size = true <->
     exists sel b, ui_selection u = Some sel /\ off <= b < off + size /\
                   r_address sel <= b < r_address sel + r_size sel) /\
  (forall (u : Ui) (off : Z), isPatternSelected u off 0 = false) /\
  isPatternSelected (uiOpen (Some (mkRegion 105 3)) false) 100 10 = true /\
  isPatternSelected (uiOpen (Some (mkRegion 0 10)) false) 100 10 = false.
Proof.
  split; [|split; [|split; reflexivity]].
  - intros u off size. unfold isPatternSelected, Region_overlaps.
    destruct (ui_selection u) as [[ra rs]|]; cbn; split.
    + intros H. apply Z.ltb_lt in H. exists (mkRegion ra rs), (Z.max off ra).
      cbn. repeat split; lia.
    + intros (sel & b & Hs & Hb1 & Hb2). injection Hs as <-. cbn in Hb2.
      apply Z.ltb_lt. lia.
    + discriminate.
    + intros (sel & b & Hs & _). discriminate.
  - intros u off. unfold isPatternSelected, Region_overlaps.
    destruct (ui_selection u) as [[ra rs]|]; cbn; [|reflexivity].
    apply Z.ltb_ge. lia.
Qed.

(** C7 (as amended): the header row of a struct, union or non-empty array
    that is not inlined has a color swatch exactly when the node is sealed;
    the header row of a bitfield or a pointer always has one. *)
Theorem header_swatch_by_kind (u : Ui) (a : Attrs) (m : DisplayEnds) :
  a_hidden a = false -> a_inlined a = false ->
  (forall ms, header_swatch (snd (draw u (PStruct a ms) m)) =
              Some (if a_sealed a then Some (a_color a) else None)) /\
  (forall ms, header_swatch (snd (draw u (PUnion a ms) m)) =
              Some (if a_sealed a then Some (a_color a) else None)) /\
  (forall es, es <> [] ->
     header_swatch (snd (draw u (PArrayDynamic a es) m)) =
       Some (if a_sealed a then Some (a_color a) else None) /\
     header_swatch (snd (draw u (PArrayStatic a es) m)) =
       Some (if a_sealed a then Some (a_color a) else None)) /\
  (forall fs, header_swatch (snd (draw u (PBitfield a fs) m)) = Some (Some (a_color a))) /\
  (forall q, header_swatch (snd (draw u (PPointer a q) m)) = Some (Some (a_color a))).
Proof.
  intros Hh Hi. unfold draw; cbn [attrs_of]; rewrite Hh.
  repeat split; intros;
    rewrite ?accept_struct, ?accept_union, ?accept_array_dynamic,
            ?accept_array_static, ?accept_bitfield, ?accept_pointer, seqD_eq;
    cbn [fst snd emit];
    unfold visitStruct, visitUnion, visitBitfield, visitPointer, drawComposite, drawArray;
    rewrite ?Hi.
  all: try (destruct es as [|e es]; [contradiction|]).
  all: cbn [length Nat.eqb]; rewrite seqD_eq; reflexivity.
Qed.

Lemma header_swatch_by_kind_witness :
  header_swatch (snd (draw (uiOpen None false) (PStruct (node 4 0 4) [n5]) ∅)) = Some None.
Proof.
  exact (proj1 (header_swatch_by_kind (uiOpen None false) (node 4 0 4) ∅
                  eq_refl eq_refl) [n5]).
Defined.

(** C7 refuted: a pointer that is not sealed still gets a color swatch in its
    header row, and so does a bitfield that is not sealed. *)
Lemma unsealed_pointer_has_swatch :
  a_sealed (attrs_of ptrOpen) = false /\ a_inlined (attrs_of ptrOpen) = false /\
  header_swatch (snd (draw (uiOpen None false) ptrOpen ∅)) = Some (Some 255) /\
  a_sealed (attrs_of bitfieldOpen) = false /\ a_inlined (attrs_of bitfieldOpen) = false /\
  header_swatch (snd (draw (uiOpen None false) bitfieldOpen ∅)) = Some (Some 255).
Proof. repeat split; vm_compute; reflexivity. Qed.

(** C8: an expanded pointer visits its pointee through [accept], not through
    [draw], so a hidden pointee is still visited and drawn as a row, while a
    struct with the same hidden member skips it. *)
Theorem pointer_draws_hidden_pointee :
  a_hidden (attrs_of hiddenU64) = true /\
  In (Visit 6) (snd (draw (uiOpen None false) ptrToHidden ∅)) /\
  map row_id (rows_of (snd (draw (uiOpen None false) ptrToHidden ∅))) = [5; 6]%nat /\
  map row_id (rows_of (snd (draw (uiOpen None false) structWithHidden ∅))) = [7]%nat.
Proof. repeat split; vm_compute; auto. Qed.

(** C1: with the offset column sorted "ascending", [sortPatterns] holds
    exactly when the left offset is greater than the right one; hence any
    result of [std::sort] (a permutation that is sorted for the comparator)
    of scalars at offsets 10, 5, 20 is in the order 20, 10, 5. *)
Theorem offset_ascending_order :
  (forall left right : Pattern,
     sortPatterns offsetAscending left right =
     (a_offset (attrs_of right) <? a_offset (attrs_of left))) /\
  (forall out : list Pattern,
     Permutation out [n10; n5; n20] ->
     is_sorted_by (sortPatterns offsetAscending) out = true ->
     map (fun p => a_offset (attrs_of p)) out = [20; 10; 5]).
Proof.
  split; [intros; reflexivity|].
  intros out Hp Hs.
  assert (Hnd : List.NoDup out).
  { apply (Permutation_NoDup (Permutation_sym Hp)).
    repeat constructor; cbn; intuition discriminate. }
  assert (Hin : forall x, In x out -> x = n10 \/ x = n5 \/ x = n20).
  { intros x Hx. pose proof (Permutation_in x Hp Hx) as H. cbn in H.
    destruct H as [<-|[<-|[<-|[]]]]; auto. }
  pose proof (Permutation_length Hp) as Hl.
  destruct out as [|x [|y [|z [|w r]]]]; cbn in Hl; try discriminate.
  destruct (Hin x ltac:(cbn; tauto)) as [ -> | [ -> | -> ] ];
  destruct (Hin y ltac:(cbn; tauto)) as [ -> | [ -> | -> ] ];
  destruct (Hin z ltac:(cbn; tauto)) as [ -> | [ -> | -> ] ].
  all: first
    [ reflexivity
    | exfalso; vm_compute in Hs; discriminate Hs
    | exfalso; inversion Hnd as [|? ? Hn1 Hnd1]; subst;
      inversion Hnd1 as [|? ? Hn2 _]; cbn in *; tauto ].
Qed.

Lemma offset_ascending_order_witness :
  map (fun p => a_offset (attrs_of p)) [n20; n10; n5] = [20; 10; 5].
Proof.
  apply (proj2 offset_ascending_order).
  - exact (Permutation_app_comm [n20] [n10; n5]).
  - vm_compute. reflexivity.
Defined.

Section SortCacheFacts.

Context {Ptr Store : Type}.
Variable deref : Store -> Ptr -> Pattern.
Variable std_sort : (Ptr -> Ptr -> bool) -> list Ptr -> list Ptr * nat.
Variable pattern_sort : (Pattern -> Pattern -> bool) -> Ptr -> Store -> Store * nat.

(** C5: a top-level draw with a non-empty root sequence, a sort spec that is
    not dirty and a non-empty cached order calls no comparator and leaves the
    table state (cached order, dirty flag, pattern store) unchanged; the
    comparator is called, and the cached order of a non-empty root sequence
    replaced, only when the spec is dirty or the cached order is empty. *)
Theorem sort_cache_reused :
  (forall u visible spec (patterns : list Ptr) (st : TableState) m,
     patterns <> [] -> specsDirty st = false -> sortedPatterns st <> [] ->
     exists m' ev,
       drawTable deref std_sort pattern_sort u visible spec patterns st m = (st, m', ev, O)) /\
  (forall u visible spec (patterns : list Ptr) (st st' : TableState) m m' ev n,
     drawTable deref std_sort pattern_sort u visible spec patterns st m = (st', m', ev, n) ->
     (n <> O \/ (patterns <> [] /\ sortedPatterns st' <> sortedPatterns st)) ->
     specsDirty st = true \/ sortedPatterns st = []).
Proof.
  split.
  - intros u visible spec patterns st m Hne Hd Hc.
    unfold drawTable, beginPatternTable.
    destruct visible; cbn [negb];
      [|eexists; eexists; reflexivity].
    destruct patterns as [|p ps]; [congruence|].
    rewrite Hd. destruct (sortedPatterns st) as [|c cs] eqn:Hs; [congruence|].
    cbn [andb orb].
    replace (mkTableState (c :: cs) false (store st)) with st
      by (destruct st; cbn in *; subst; reflexivity).
    destruct (drawAllTop u (map (deref (store st)) (sortedPatterns st)) m).
    eexists; eexists; reflexivity.
  - intros u visible spec patterns st st' m m' ev n Hdraw Hch.
    destruct (specsDirty st) eqn:Hd; [left; reflexivity|right].
    destruct (sortedPatterns st) as [|c cs] eqn:Hs; [reflexivity|exfalso].
    unfold drawTable, beginPatternTable in Hdraw.
    rewrite Hd, Hs in Hdraw.
    destruct visible; cbn [negb] in Hdraw.
    + destruct patterns as [|p ps]; cbn [andb orb] in Hdraw.
      * destruct (drawAllTop u _ m); injection Hdraw as <- _ _ <-.
        destruct Hch as [Hn|[Hn _]]; congruence.
      * destruct (drawAllTop u _ m); injection Hdraw as <- _ _ <-.
        cbn in Hch. destruct Hch as [Hn|[_ Hn]]; congruence.
    + injection Hdraw as <- _ _ <-. cbn in Hch.
      destruct Hch as [Hn|[_ Hn]]; congruence.
Qed.

End SortCacheFacts.

Lemma sort_cache_reused_witness :
  exists m' ev,
    drawTable (fun (_ : unit) (p : nat) => PUnsigned (node p (Z.of_nat p) 1))
      isort_count (fun _ _ s => (s, O)) (uiOpen None false) true offsetAscending
      [10; 5; 20]%nat (mkTableState [20; 10; 5]%nat false tt) ∅
    = (mkTableState [20; 10; 5]%nat false tt, m', ev, O).
Proof.
  apply (proj1 (sort_cache_reused _ _ _)); [discriminate | reflexivity | discriminate].
Defined.

(** C2: for an array node that is drawn open (not hidden; inlined, or not
    sealed and expanded) with [N] entries and display end [d], the rows of
    its chunk loop are exactly the summary rows of chunks [0 .. min(ceil(N/50), d) - 1],
    in order, followed by one load-more placeholder when [ceil(N/50) > d] and
    none otherwise; nothing of the loop follows the placeholder. The array is
    not among its own descendants. *)
Theorem open_array_chunk_rows (u : Ui) (a : Attrs) (es : list Pattern) (m : DisplayEnds) :
  a_hidden a = false ->
  (a_inlined a = true \/ (a_sealed a = false /\ ui_node_open u (a_id a) = true)) ->
  ~ In (a_id a) (flat_map ids_of es) ->
  0 <= displayEndOf m (a_id a) ->
  let chunks := ((length es + 49) / 50)%nat in
  let d := Z.to_nat (displayEndOf m (a_id a)) in
  let expected := map (fun j => MChunk (50 * j)) (seq 0 (Nat.min chunks d)) ++
                  (if Nat.ltb d chunks then [MPlaceholder] else []) in
  own_marks (a_id a) (snd (draw u (PArrayDynamic a es) m)) = expected /\
  own_marks (a_id a) (snd (draw u (PArrayStatic a es) m)) = expected.
Proof.
  intros Hh Hopen Hfresh Hpos chunks d expected.
  assert (Hd : Forall (frames (a_id a)) (map (draw u) es)).
  { apply List.Forall_forall. intros x Hx. apply in_map_iff in Hx as (q & <- & Hq).
    apply frames_accept. intros Hin. apply Hfresh. apply in_flat_map. eauto. }
  assert (Harr : own_marks (a_id a)
                   (snd (drawArray u a es (map (draw u) es) (a_inlined a) m)) = expected).
  { unfold drawArray. subst expected chunks d.
    destruct (Nat.eqb (length es) 0) eqn:Hn.
    - apply Nat.eqb_eq in Hn. rewrite Hn. reflexivity.
    - assert (Ho : (if a_inlined a then true else createTreeNode u a) = true).
      { unfold createTreeNode. destruct Hopen as [-> | [Hs Hu]]; [reflexivity|].
        destruct (a_inlined a); [reflexivity|]. rewrite Hs. exact Hu. }
      rewrite Ho, seqD_eq. cbn [snd]. rewrite own_marks_app.
      assert (Hhd : fst ((if a_inlined a then skip
                         else emit (headerRow u a (if a_sealed a then Some (a_color a) else None)
                                      (TypeArray (a_typeName a) (length es)))) m) = m /\
                    own_marks (a_id a)
                      (snd ((if a_inlined a then skip
                             else emit (headerRow u a (if a_sealed a then Some (a_color a) else None)
                                          (TypeArray (a_typeName a) (length es)))) m)) = []).
      { destruct (a_inlined a); split; reflexivity. }
      destruct Hhd as [-> ->]. cbn [app].
      pose proof (chunkLoop_marks u a es (map (draw u) es) Hd (length es) 0 m Hpos
                    ltac:(lia) ltac:(nat_div50 (length es); lia)) as HL.
      change (50 * 0)%nat with 0%nat in HL. change (Z.of_nat 0) with 0 in HL.
      rewrite HL.
      rewrite Nat.sub_0_r. reflexivity. }
  unfold draw. cbn [attrs_of]. rewrite Hh.
  rewrite accept_array_dynamic, accept_array_static, !seqD_eq. cbn [fst snd emit].
  rewrite !own_marks_app, Harr. split; reflexivity.
Qed.

Lemma open_array_chunk_rows_witness :
  own_marks 1 (snd (draw (uiOpen None false) arr120 (<[1%nat := 1]> ∅)))
    = [MChunk 0; MPlaceholder] /\
  own_marks 1 (snd (draw (uiOpen None false) arr120 (<[1%nat := 3]> ∅)))
    = [MChunk 0; MChunk 50; MChunk 100].
Proof.
  split.
  - exact (proj2 (open_array_chunk_rows (uiOpen None false) (node 1 0 120) (u8s 120)
                    (<[1%nat := 1]> ∅) eq_refl (or_intror (conj eq_refl eq_refl))
                    ltac:(vm_compute; intuition discriminate) ltac:(vm_compute; discriminate))).
  - exact (proj2 (open_array_chunk_rows (uiOpen None false) (node 1 0 120) (u8s 120)
                    (<[1%nat := 3]> ∅) eq_refl (or_intror (conj eq_refl eq_refl))
                    ltac:(vm_compute; intuition discriminate) ltac:(vm_compute; discriminate))).
Defined.

(** C4: a node's display end is 50 when [getDisplayEnd] first creates it; over
    draw calls starting from an empty map (a fresh drawer), every node's
    display end is 50 plus 50 per reveal (double-click on its placeholder)
    seen so far; and further draw calls never lower it nor remove an entry.
    Array lengths are taken to fit in u64, as they do in the source. *)
Theorem display_end_grows (calls1 calls2 : list (Ui * Pattern)) :
  Forall (fun c => counts_fit (snd c) = true) (calls1 ++ calls2) ->
  (forall id m, m !! id = None ->
     getDisplayEnd id m = (DisplayEndDefault, <[id := DisplayEndDefault]> m)) /\
  (forall id, displayEndOf (fst (run_draws calls1 ∅)) id =
                50 + 50 * Z.of_nat (reveals id (snd (run_draws calls1 ∅)))) /\
  (forall id, displayEndOf (fst (run_draws calls1 ∅)) id <=
                displayEndOf (fst (run_draws (calls1 ++ calls2) ∅)) id) /\
  (forall id, fst (run_draws calls1 ∅) !! id <> None ->
                fst (run_draws (calls1 ++ calls2) ∅) !! id <> None).
Proof.
  intros Hfit. apply Forall_app in Hfit as [Hf1 Hf2].
  assert (H0 : in_range (∅ : DisplayEnds)) by apply map_Forall_empty.
  destruct (run_draws_grows calls1 Hf1 ∅ H0) as [Hr1 H1].
  destruct (run_draws_grows calls2 Hf2 _ Hr1) as [_ H2].
  split; [intros id m Hn; unfold getDisplayEnd; rewrite Hn; reflexivity|].
  split; [|split].
  - intros id. destruct (H1 id) as [E _]. rewrite E.
    unfold displayEndOf at 1. rewrite lookup_empty. reflexivity.
  - intros id. rewrite run_draws_app. destruct (H2 id) as [E _]. rewrite E. lia.
  - intros id Hin. rewrite run_draws_app. destruct (H2 id) as [_ D]. auto.
Qed.

Lemma display_end_grows_witness :
  Forall (fun c => counts_fit (snd c) = true) (revealCall ++ revealCall) /\
  displayEndOf (fst (run_draws revealCall ∅)) 1 = 100 /\
  displayEndOf (fst (run_draws revealCall ∅)) 1 =
    50 + 50 * Z.of_nat (reveals 1 (snd (run_draws revealCall ∅))) /\
  displayEndOf (fst (run_draws revealCall ∅)) 1 <=
    displayEndOf (fst (run_draws (revealCall ++ revealCall) ∅)) 1.
Proof.
  assert (H : Forall (fun c => counts_fit (snd c) = true) (revealCall ++ revealCall)).
  { repeat constructor; vm_compute; reflexivity. }
  destruct (display_end_grows revealCall revealCall H) as (_ & Hb & Hc & _).
  split; [exact H|]. split; [vm_compute; reflexivity|].
  split; [apply Hb | apply Hc].
Defined.

(* ------------------------------------------------------------------ *)
(** ** Further properties of the drawer *)

(** *** Comparator facts *)

Lemma swo_ext {A : Type} (f g : A -> A -> bool) :
  (forall x y, f x y = g x y) -> strict_weak_order f -> strict_weak_order g.
Proof.
  intros E (H1 & H2 & H3). split; [|split].
  - intros x. rewrite <- E. apply H1.
  - intros x y z. rewrite <- !E. apply H2.
  - intros x y z. rewrite <- !E. apply H3.
Qed.

(** A comparator of a key under a total strict order, either way round. *)
Lemma swo_key {A K : Type} (key : A -> K) (lt : K -> K -> bool) (asc : bool) :
  (forall x, lt x x = false) ->
  (forall x y z, lt x y = true -> lt y z = true -> lt x z = true) ->
  (forall x y, lt x y = false -> lt y x = false -> x = y) ->
  strict_weak_order (fun a b => if asc then lt (key b) (key a) else lt (key a) (key b)).
Proof.
  intros Hi Ht Htot. split; [|split].
  - intros x. destruct asc; apply Hi.
  - intros x y z. destruct asc; eauto.
  - intros x y z H1 H2 H3 H4.
    assert (E1 : key x = key y) by (destruct asc; [symmetry|]; apply Htot; assumption).
    assert (E2 : key y = key z) by (destruct asc; [symmetry|]; apply Htot; assumption).
    rewrite <- E2, <- E1. destruct asc; split; apply Hi.
Qed.

Lemma swo_false {A : Type} : strict_weak_order (fun _ _ : A => false).
Proof. split; [|split]; auto. Qed.

Lemma string_compare_refl (s : string) : String.compare s s = Eq.
Proof.
  induction s as [|c s IH]; [reflexivity|]. cbn.
  unfold Ascii.compare. rewrite N.compare_refl. exact IH.
Qed.

Lemma string_compare_trans_lt (s1 s2 s3 : string) :
  String.compare s1 s2 = Lt -> String.compare s2 s3 = Lt -> String.compare s1 s3 = Lt.
Proof.
  revert s2 s3. induction s1 as [|c1 t1 IH]; intros [|c2 t2] [|c3 t3]; cbn;
    try discriminate; try reflexivity.
  destruct (Ascii.compare c1 c2) eqn:E12; destruct (Ascii.compare c2 c3) eqn:E23;
    try discriminate; intros H1 H2.
  - apply Ascii.compare_eq_iff in E12, E23. subst.
    unfold Ascii.compare. rewrite N.compare_refl. eauto.
  - apply Ascii.compare_eq_iff in E12. subst. rewrite E23. reflexivity.
  - apply Ascii.compare_eq_iff in E23. subst. rewrite E12. reflexivity.
  - unfold Ascii.compare in *. rewrite N.compare_lt_iff in *.
    replace (N_of_ascii c1 ?= N_of_ascii c3)%N with Lt
      by (symmetry; apply N.compare_lt_iff; lia).
    reflexivity.
Qed.

Lemma string_lt_irrefl (s : string) : string_lt s s = false.
Proof. unfold string_lt. rewrite string_compare_refl. reflexivity. Qed.

Lemma string_lt_trans (x y z : string) :
  string_lt x y = true -> string_lt y z = true -> string_lt x z = true.
Proof.
  unfold string_lt. destruct (String.compare x y) eqn:E1; try discriminate.
  destruct (String.compare y z) eqn:E2; try discriminate.
  rewrite (string_compare_trans_lt _ _ _ E1 E2). reflexivity.
Qed.

Lemma string_lt_total (x y : string) :
  string_lt x y = false -> string_lt y x = false -> x = y.
Proof.
  unfold string_lt. rewrite (String.compare_antisym y x).
  destruct (String.compare x y) eqn:E; cbn; try discriminate.
  - intros _ _. apply String.compare_eq_iff. exact E.
Qed.

Lemma Zltb_irrefl' (x : Z) : (x <? x) = false.
Proof. apply Z.ltb_irrefl. Qed.

Lemma Zltb_trans' (x y z : Z) : (x <? y) = true -> (y <? z) = true -> (x <? z) = true.
Proof. rewrite !Z.ltb_lt. lia. Qed.

Lemma Zltb_total (x y : Z) : (x <? y) = false -> (y <? x) = false -> x = y.
Proof. rewrite !Z.ltb_ge. lia. Qed.

(** *** Extra properties, batch one *)


(** sortPatterns is a valid [std::sort] comparator (a strict weak ordering)
    for every sort column except "value", in both directions; an unknown
    column compares nothing. *)
Theorem sortPatterns_strict_weak_order (s : SortSpec) :
  ColumnUserID s <> "value"%string -> strict_weak_order (sortPatterns s).
Proof.
  intros Hv.
  set (asc := match SortDirection s with ImGuiSortDirection_Ascending => true | _ => false end).
  destruct (String.eqb (ColumnUserID s) "name") eqn:En.
  { eapply swo_ext; [|apply (swo_key (fun p => a_displayName (attrs_of p)) string_lt asc
                              string_lt_irrefl string_lt_trans string_lt_total)].
    intros x y. unfold sortPatterns. cbv zeta. rewrite En. reflexivity. }
  destruct (String.eqb (ColumnUserID s) "offset") eqn:Eo.
  { eapply swo_ext; [|apply (swo_key (fun p => a_offset (attrs_of p)) Z.ltb asc
                              Zltb_irrefl' Zltb_trans' Zltb_total)].
    intros x y. unfold sortPatterns. cbv zeta. rewrite En, Eo. reflexivity. }
  destruct (String.eqb (ColumnUserID s) "size") eqn:Es.
  { eapply swo_ext; [|apply (swo_key (fun p => a_size (attrs_of p)) Z.ltb asc
                              Zltb_irrefl' Zltb_trans' Zltb_total)].
    intros x y. unfold sortPatterns. cbv zeta. rewrite En, Eo, Es. reflexivity. }
  destruct (String.eqb (ColumnUserID s) "value") eqn:Ev.
  { apply String.eqb_eq in Ev. contradiction. }
  destruct (String.eqb (ColumnUserID s) "type") eqn:Et.
  { eapply swo_ext; [|apply (swo_key (fun p => a_typeName (attrs_of p)) string_lt asc
                              string_lt_irrefl string_lt_trans string_lt_total)].
    intros x y. unfold sortPatterns. cbv zeta. rewrite En, Eo, Es, Ev, Et. reflexivity. }
  destruct (String.eqb (ColumnUserID s) "color") eqn:Ec.
  { eapply swo_ext; [|apply (swo_key (fun p => a_color (attrs_of p)) Z.ltb asc
                              Zltb_irrefl' Zltb_trans' Zltb_total)].
    intros x y. unfold sortPatterns. cbv zeta. rewrite En, Eo, Es, Ev, Et, Ec. reflexivity. }
  eapply swo_ext; [|apply swo_false].
  intros x y. unfold sortPatterns. cbv zeta. rewrite En, Eo, Es, Ev, Et, Ec. reflexivity.
Qed.

Lemma sortPatterns_strict_weak_order_witness :
  ColumnUserID offsetAscending <> "value"%string /\
  strict_weak_order (sortPatterns offsetAscending).
Proof.
  split; [discriminate|]. apply sortPatterns_strict_weak_order. discriminate.
Defined.

(** On the "value" column, sortPatterns is not a strict weak ordering in
    either direction: a NaN double is incomparable with both 1.0 and 2.0,
    which are comparable with each other. [std::sort] with such a
    comparator has undefined behaviour. *)
Theorem value_column_not_strict_weak (d : ImGuiSortDirection) :
  let lt := sortPatterns (mkSortSpec "value" d) in
  let x := withValue 1 (LDouble 1.0%float) in
  let y := withValue 2 (LDouble PrimFloat.nan) in
  let z := withValue 3 (LDouble 2.0%float) in
  (lt x y = false /\ lt y x = false /\ lt y z = false /\ lt z y = false /\
   orb (lt x z) (lt z x) = true) /\
  ~ strict_weak_order lt.
Proof.
  cbv zeta. split.
  - destruct d; repeat split; reflexivity.
  - intros (_ & _ & Hinc).
    destruct (Hinc (withValue 1 (LDouble 1.0%float)) (withValue 2 (LDouble PrimFloat.nan))
                   (withValue 3 (LDouble 2.0%float)))
      as [H1 H2]; destruct d; try reflexivity; discriminate.
Qed.

Section TableFacts.

Context {Ptr Store : Type}.
Variable deref : Store -> Ptr -> Pattern.
Variable std_sort : (Ptr -> Ptr -> bool) -> list Ptr -> list Ptr * nat.
Variable pattern_sort : (Pattern -> Pattern -> bool) -> Ptr -> Store -> Store * nat.

(** Drawing an empty pattern list draws no row, leaves the display ends
    alone and calls no comparator; when the table is shown it also clears a
    stale sorted cache, keeping the dirty flag. *)
Theorem drawTable_empty_patterns (u : Ui) (visible : bool) (spec : SortSpec)
    (st : TableState) (m : DisplayEnds) :
  drawTable deref std_sort pattern_sort u visible spec [] st m =
    ((if visible then mkTableState [] (specsDirty st) (store st) else st), m, [], O).
Proof. destruct visible; reflexivity. Qed.

(** With a clean sort spec and a non-empty cached order, a shown table
    draws the patterns of the cached order, whatever non-empty list it is
    given now: patterns added since the cache was built are not drawn and
    the cached handles are drawn in their cached order. *)
Theorem drawTable_draws_cache (u : Ui) (spec : SortSpec) (patterns : list Ptr)
    (st : TableState) (m : DisplayEnds) :
  patterns <> [] -> specsDirty st = false -> sortedPatterns st <> [] ->
  drawTable deref std_sort pattern_sort u true spec patterns st m =
    (st, fst (drawAllTop u (map (deref (store st)) (sortedPatterns st)) m),
     snd (drawAllTop u (map (deref (store st)) (sortedPatterns st)) m), O).
Proof.
  intros Hne Hd Hc. unfold drawTable, beginPatternTable. cbn [negb].
  destruct patterns as [|p ps]; [congruence|].
  rewrite Hd. destruct (sortedPatterns st) as [|c cs] eqn:Hs; [congruence|].
  cbn [andb orb].
  replace (mkTableState (c :: cs) false (store st)) with st
    by (destruct st; cbn in *; subst; reflexivity).
  rewrite Hs. destruct (drawAllTop u (map (deref (store st)) (c :: cs)) m). reflexivity.
Qed.

End TableFacts.

Lemma drawTable_draws_cache_witness :
  ([5%nat] <> []) /\ (specsDirty (mkTableState [20; 10]%nat false tt) = false) /\
  (sortedPatterns (mkTableState [20; 10]%nat false tt) <> []) /\
  map event_id
    (snd (fst (drawTable (fun (_ : unit) (p : nat) => PUnsigned (node p (Z.of_nat p) 1))
                isort_count (fun _ _ s => (s, O)) (uiOpen None false) true offsetAscending
                [5%nat] (mkTableState [20; 10]%nat false tt) ∅))) = [20; 20; 10; 10]%nat.
Proof.
  split; [discriminate|]. split; [reflexivity|]. split; [discriminate|].
  rewrite (drawTable_draws_cache (fun (_ : unit) (p : nat) => PUnsigned (node p (Z.of_nat p) 1))
             isort_count (fun _ _ s => (s, O)) (uiOpen None false) offsetAscending
             [5%nat] (mkTableState [20; 10]%nat false tt) ∅
             ltac:(discriminate) eq_refl ltac:(discriminate)).
  vm_compute. reflexivity.
Defined.

(** A non-inlined sealed bitfield, pointer, struct, union or non-empty
    array draws its header row and nothing else: createTreeNode returns
    false, so no member and no chunk is drawn, and the display ends are left
    alone. *)
Theorem sealed_composite_header_only (u : Ui) (p : Pattern) (m : DisplayEnds) :
  has_header p = true -> a_hidden (attrs_of p) = false ->
  a_sealed (attrs_of p) = true -> a_inlined (attrs_of p) = false ->
  exists r, draw u p m = (m, [Visit (a_id (attrs_of p)); Emit r]) /\
            row_id r = a_id (attrs_of p).
Proof.
  intros Hh Hhid Hs Hi. unfold draw. rewrite Hhid.
  destruct p; cbn [has_header attrs_of] in Hh, Hhid, Hs, Hi |- *; try discriminate;
    rewrite ?accept_array_dynamic, ?accept_array_static, ?accept_bitfield,
            ?accept_struct, ?accept_union, ?accept_pointer, seqD_eq;
    unfold drawArray, visitBitfield, visitStruct, visitUnion, visitPointer,
           drawComposite, createTreeNode;
    rewrite ?Hi, ?Hs; try (apply negb_true_iff in Hh; rewrite Hh);
    eexists; (split; [reflexivity|reflexivity]).
Qed.

Lemma sealed_composite_header_only_witness :
  has_header sealedStruct = true /\
  exists r, draw (uiOpen None false) sealedStruct ∅ = (∅, [Visit 20; Emit r]) /\ row_id r = 20%nat.
Proof.
  split; [reflexivity|].
  exact (sealed_composite_header_only (uiOpen None false) sealedStruct ∅
           eq_refl eq_refl eq_refl eq_refl).
Defined.

(** An inlined bitfield, struct or union draws no header and always draws
    its members, sealed or not and whatever the user expanded: its events
    are its visit followed by the members' draws. *)
Theorem inlined_composite_members (u : Ui) (p : Pattern) (m : DisplayEnds) :
  match p with PBitfield _ _ | PStruct _ _ | PUnion _ _ => True | _ => False end ->
  a_hidden (attrs_of p) = false -> a_inlined (attrs_of p) = true ->
  draw u p m = (fst (seq_all (map (draw u) (children p)) m),
                Visit (a_id (attrs_of p)) :: snd (seq_all (map (draw u) (children p)) m)).
Proof.
  intros Hk Hhid Hi. unfold draw. rewrite Hhid.
  destruct p; try contradiction; cbn [attrs_of children] in Hhid, Hi |- *;
    rewrite ?accept_bitfield, ?accept_struct, ?accept_union, seqD_eq;
    unfold visitBitfield, visitStruct, visitUnion, drawComposite; rewrite Hi, seqD_eq;
    reflexivity.
Qed.

Lemma inlined_composite_members_witness :
  draw (uiOpen None false) inlinedSealedStruct ∅ =
    (fst (seq_all (map (draw (uiOpen None false)) [PUnsigned (node 23 0 4)]) ∅),
     Visit 22 :: snd (seq_all (map (draw (uiOpen None false)) [PUnsigned (node 23 0 4)]) ∅)).
Proof. exact (inlined_composite_members (uiOpen None false) inlinedSealedStruct ∅ I eq_refl eq_refl). Defined.



(** *** Invariants of every emitted event *)

Lemma chunkBody_unfold (u : Ui) (a : Attrs) (es : list Pattern) (draws : list D) (i : nat) :
  chunkBody u a es draws i =
  (emit (Emit (chunkRowAt u a es i)) ;;
   (if ui_chunk_open u (a_id a) i
    then seq_all (firstn (Nat.min (length es) (i + ChunkSize) - i) (skipn i draws))
    else skip)).
Proof. reflexivity. Qed.

Definition ev_all (Q : Event -> Prop) (x : D) : Prop := forall m, Forall Q (snd (x m)).

Lemma ev_all_skip (Q : Event -> Prop) : ev_all Q skip.
Proof. intros m. constructor. Qed.

Lemma ev_all_emit (Q : Event -> Prop) (e : Event) : Q e -> ev_all Q (emit e).
Proof. intros H m. repeat constructor. exact H. Qed.

Lemma ev_all_seq (Q : Event -> Prop) (x y : D) : ev_all Q x -> ev_all Q y -> ev_all Q (x ;; y).
Proof. intros Hx Hy m. rewrite seqD_eq. cbn [snd]. apply Forall_app. auto. Qed.

Lemma ev_all_seq_all (Q : Event -> Prop) (l : list D) : Forall (ev_all Q) l -> ev_all Q (seq_all l).
Proof. induction 1; cbn [seq_all]; [apply ev_all_skip | apply ev_all_seq; assumption]. Qed.

Lemma ev_all_mono (Q Q' : Event -> Prop) (x : D) :
  (forall e, Q e -> Q' e) -> ev_all Q x -> ev_all Q' x.
Proof. intros HQ Hx m. eapply Forall_impl; [apply Hx | exact HQ]. Qed.

Lemma ev_all_chunkLoop (Q : Event -> Prop) (u : Ui) (a : Attrs) (es : list Pattern)
    (draws : list D) :
  (forall b, Q (Emit (PlaceholderRow (a_id a) b))) ->
  (forall i, Q (Emit (chunkRowAt u a es i))) ->
  Forall (ev_all Q) draws ->
  forall fuel i cc, ev_all Q (chunkLoop u a es draws fuel i cc).
Proof.
  intros Hp Hc Hd. induction fuel as [|fuel IH]; intros i cc m; cbn [chunkLoop].
  { constructor. }
  destruct (Nat.ltb i (length es)); [|constructor].
  destruct (getDisplayEnd (a_id a) m) as [displayEnd m1].
  destruct (displayEnd <? cc + 1).
  - cbn [snd]. repeat constructor. apply Hp.
  - revert m1. fold (ev_all Q (chunkBody u a es draws i ;;
                               chunkLoop u a es draws fuel (i + ChunkSize) (cc + 1))).
    apply ev_all_seq; [|apply IH]. rewrite chunkBody_unfold.
    apply ev_all_seq; [apply ev_all_emit, Hc|].
    destruct (ui_chunk_open u (a_id a) i); [|apply ev_all_skip].
    apply ev_all_seq_all. apply Forall_take, Forall_drop, Hd.
Qed.

Ltac ev_all_steps solver :=
  repeat match goal with
         | |- ev_all _ (_ ;; _) => apply ev_all_seq
         | |- ev_all _ (if ?b then _ else _) => destruct b
         | |- ev_all _ skip => apply ev_all_skip
         | |- ev_all _ (emit _) => apply ev_all_emit; solver
         | |- ev_all _ (seq_all _) => apply ev_all_seq_all; assumption
         | |- ev_all _ (chunkLoop _ _ _ _ _ _ _) =>
             apply ev_all_chunkLoop; [intros ?; solver | intros ?; solver | assumption]
         end.

Lemma ids_of_child (p q : Pattern) (x : nat) :
  In q (children p) -> In x (ids_of q) -> In x (ids_of p).
Proof. intros Hq Hx. rewrite ids_of_children. right. apply in_flat_map. eauto. Qed.

Lemma ev_all_confined (u : Ui) (p : Pattern) :
  ev_all (fun e => In (event_id e) (ids_of p)) (accept u p) /\
  ev_all (fun e => In (event_id e) (ids_of p)) (draw u p).
Proof.
  revert p.
  apply (Pattern_children_ind (fun p =>
           ev_all (fun e => In (event_id e) (ids_of p)) (accept u p) /\
           ev_all (fun e => In (event_id e) (ids_of p)) (draw u p))).
  intros p IH.
  assert (Hch : Forall (ev_all (fun e => In (event_id e) (ids_of p)))
                       (map (draw u) (children p))).
  { apply List.Forall_forall. intros x Hx. apply in_map_iff in Hx as (q & <- & Hq).
    eapply ev_all_mono; [|apply (IH q Hq)]. intros e He. eapply ids_of_child; eauto. }
  assert (Hacc : ev_all (fun e => In (event_id e) (ids_of p)) (accept u p)).
  { destruct p; cbn [children] in Hch;
      rewrite ?accept_array_dynamic, ?accept_array_static, ?accept_bitfield,
              ?accept_struct, ?accept_union, ?accept_pointer;
      apply ev_all_seq; try (apply ev_all_emit; rewrite ids_of_children; left; reflexivity);
      cbn [accept];
      unfold drawArray, visitBitfield, visitStruct, visitUnion, visitPointer,
             drawComposite, createDefaultEntry, visitEnum, visitBitfieldField;
      ev_all_steps ltac:(unfold headerRow, defaultEntryRow, chunkRowAt;
                         rewrite ids_of_children; left; reflexivity).
    (* the pointee *)
    eapply ev_all_mono; [|apply (IH p (or_introl eq_refl))].
    intros e He. exact (ids_of_child (PPointer a p) p _ (or_introl eq_refl) He). }
  split; [exact Hacc|]. unfold draw.
  destruct (a_hidden (attrs_of p)); [apply ev_all_skip | exact Hacc].
Qed.

Lemma ev_all_unselected (u : Ui) (p : Pattern) :
  ui_selection u = None ->
  let Q := fun e => match e with Emit r => row_selected r = false | Visit _ => True end in
  ev_all Q (accept u p) /\ ev_all Q (draw u p).
Proof.
  intros Hsel Q. revert p.
  apply (Pattern_children_ind (fun p => ev_all Q (accept u p) /\ ev_all Q (draw u p))).
  intros p IH.
  assert (Hch : Forall (ev_all Q) (map (draw u) (children p))).
  { apply List.Forall_forall. intros x Hx. apply in_map_iff in Hx as (q & <- & Hq).
    apply (IH q Hq). }
  assert (Hacc : ev_all Q (accept u p)).
  { destruct p; cbn [children] in Hch;
      rewrite ?accept_array_dynamic, ?accept_array_static, ?accept_bitfield,
              ?accept_struct, ?accept_union, ?accept_pointer;
      apply ev_all_seq; try (apply ev_all_emit; exact I);
      cbn [accept];
      unfold drawArray, visitBitfield, visitStruct, visitUnion, visitPointer,
             drawComposite, createDefaultEntry, visitEnum, visitBitfieldField;
      ev_all_steps ltac:(unfold Q, headerRow, defaultEntryRow, chunkRowAt, selectedA,
                           isPatternSelected; try rewrite Hsel; reflexivity).
    apply (IH p (or_introl eq_refl)). }
  split; [exact Hacc|]. unfold draw.
  destruct (a_hidden (attrs_of p)); [apply ev_all_skip | exact Hacc].
Qed.

(** *** Display ends touched only at arrays *)

Definition keeps (id : nat) (x : D) : Prop := forall m, fst (x m) !! id = m !! id.

Lemma keeps_skip (id : nat) : keeps id skip.
Proof. intros m. reflexivity. Qed.

Lemma keeps_emit (id : nat) (e : Event) : keeps id (emit e).
Proof. intros m. reflexivity. Qed.

Lemma keeps_seq (id : nat) (x y : D) : keeps id x -> keeps id y -> keeps id (x ;; y).
Proof. intros Hx Hy m. rewrite seqD_eq. cbn [fst]. rewrite Hy. apply Hx. Qed.

Lemma keeps_seq_all (id : nat) (l : list D) : Forall (keeps id) l -> keeps id (seq_all l).
Proof. induction 1; cbn [seq_all]; [apply keeps_skip | apply keeps_seq; assumption]. Qed.

Lemma keeps_chunkLoop (u : Ui) (a : Attrs) (es : list Pattern) (draws : list D) (id : nat) :
  a_id a <> id -> Forall (keeps id) draws ->
  forall fuel i cc, keeps id (chunkLoop u a es draws fuel i cc).
Proof.
  intros Hne Hd. induction fuel as [|fuel IH]; intros i cc m; cbn [chunkLoop].
  { reflexivity. }
  destruct (Nat.ltb i (length es)); [|reflexivity].
  destruct (getDisplayEnd_spec (a_id a) m) as (_ & _ & Hm1).
  specialize (Hm1 id (not_eq_sym Hne)).
  destruct (getDisplayEnd (a_id a) m) as [displayEnd m1]. cbn [snd] in Hm1.
  destruct (displayEnd <? cc + 1).
  - cbn [fst]. destruct (ui_reveal_click u (a_id a)); [|exact Hm1].
    rewrite lookup_insert_ne by congruence. exact Hm1.
  - assert (Hk : keeps id (chunkBody u a es draws i ;;
                           chunkLoop u a es draws fuel (i + ChunkSize) (cc + 1))).
    { apply keeps_seq; [|apply IH]. unfold chunkBody.
      apply keeps_seq; [apply keeps_emit|].
      destruct (ui_chunk_open u (a_id a) i); [|apply keeps_skip].
      apply keeps_seq_all. apply Forall_take, Forall_drop, Hd. }
    rewrite <- Hm1. apply Hk.
Qed.

Lemma array_ids_child (p q : Pattern) (x : nat) :
  In q (children p) -> In x (array_ids q) -> In x (array_ids p).
Proof.
  intros Hq Hx. destruct p; cbn [children] in Hq; try contradiction; cbn [array_ids];
    try (apply in_or_app; right); try (apply in_flat_map; eauto).
  destruct Hq as [<-|[]]. exact Hx.
Qed.

Lemma keeps_accept (u : Ui) (id : nat) (p : Pattern) :
  ~ In id (array_ids p) -> keeps id (accept u p) /\ keeps id (draw u p).
Proof.
  revert p.
  apply (Pattern_children_ind (fun p => ~ In id (array_ids p) ->
           keeps id (accept u p) /\ keeps id (draw u p))).
  intros p IH Hid.
  assert (Hch : Forall (keeps id) (map (draw u) (children p))).
  { apply List.Forall_forall. intros x Hx. apply in_map_iff in Hx as (q & <- & Hq).
    apply (IH q Hq). intros Hin. apply Hid. eapply array_ids_child; eauto. }
  assert (Hacc : keeps id (accept u p)).
  { destruct p; cbn [children] in Hch;
      rewrite ?accept_array_dynamic, ?accept_array_static, ?accept_bitfield,
              ?accept_struct, ?accept_union, ?accept_pointer;
      apply keeps_seq; try apply keeps_emit;
      cbn [accept];
      unfold drawArray, visitBitfield, visitStruct, visitUnion, visitPointer,
             drawComposite, createDefaultEntry, visitEnum, visitBitfieldField;
      repeat match goal with
             | |- keeps _ (_ ;; _) => apply keeps_seq
             | |- keeps _ (if Nat.eqb (length ?l) 0 then _ else _) =>
                 destruct (Nat.eqb (length l) 0) eqn:?
             | |- keeps _ (if ?b then _ else _) => destruct b
             | |- keeps _ skip => apply keeps_skip
             | |- keeps _ (emit _) => apply keeps_emit
             | |- keeps _ (seq_all _) => apply keeps_seq_all; assumption
             | H : Nat.eqb _ 0 = false |- keeps _ (chunkLoop _ _ _ _ _ _ _) =>
                 apply keeps_chunkLoop; [|assumption];
                 intros E; apply Hid; cbn [array_ids]; rewrite H; left; exact E
             end.
    (* the pointee *)
    apply (IH p (or_introl eq_refl)). exact Hid. }
  split; [exact Hacc|]. unfold draw.
  destruct (a_hidden (attrs_of p)); [apply keeps_skip | exact Hacc].
Qed.

(** draw never reports an event for a node outside the drawn subtree: every
    visit and every row (headers, entries, chunk summaries, placeholders)
    belongs to the pattern or one of its descendants, the pointee of a
    pointer included. *)
Theorem draw_events_in_subtree (u : Ui) (p : Pattern) (m : DisplayEnds) :
  List.Forall (fun e => In (event_id e) (ids_of p)) (snd (draw u p m)).
Proof. exact (proj2 (ev_all_confined u p) m). Qed.

(** With no selection in the hex editor, no row drawn for any tree is
    highlighted: headers, entries, bitfield fields and chunk summaries all
    test [isPatternSelected], which is false without a selection. *)
Theorem no_selection_no_highlight (u : Ui) (p : Pattern) (m : DisplayEnds) :
  ui_selection u = None ->
  forall r, In r (rows_of (snd (draw u p m))) -> row_selected r = false.
Proof.
  intros Hsel r Hr. pose proof (proj2 (ev_all_unselected u p Hsel) m) as H.
  rewrite List.Forall_forall in H. unfold rows_of in Hr.
  apply in_flat_map in Hr as (e & He & Hr).
  specialize (H e He). destruct e as [id|r']; cbn in Hr; [contradiction|].
  destruct Hr as [<-|[]]. exact H.
Qed.

Lemma no_selection_no_highlight_witness :
  ui_selection (uiOpen None false) = None /\
  forall r, In r (rows_of (snd (draw (uiOpen None false) arr120 ∅))) -> row_selected r = false.
Proof.
  split; [reflexivity|]. exact (no_selection_no_highlight (uiOpen None false) arr120 ∅ eq_refl).
Defined.

(** draw changes the display end of no node other than the non-empty
    arrays of the drawn subtree: scalars, composites, empty arrays and nodes
    outside the tree keep their entry (or its absence). *)
Theorem draw_display_ends_local (u : Ui) (p : Pattern) (m : DisplayEnds) (id : nat) :
  ~ In id (array_ids p) -> fst (draw u p m) !! id = m !! id.
Proof. intros H. exact (proj2 (keeps_accept u id p H) m). Qed.

Lemma draw_display_ends_local_witness :
  ~ In 2%nat (array_ids arr120) /\ fst (draw (uiOpen None false) arr120 ∅) !! 2%nat = None.
Proof.
  split; [cbn; intuition discriminate|].
  exact (draw_display_ends_local (uiOpen None false) arr120 ∅ 2 ltac:(cbn; intuition discriminate)).
Defined.

(** *** Chunk rows and the entries they stand for *)

Lemma own_chunks_app (id : nat) (l1 l2 : list Event) :
  own_chunks id (l1 ++ l2) = own_chunks id l1 ++ own_chunks id l2.
Proof. apply flat_map_app. Qed.


Lemma own_chunks_nil (id : nat) (ev : list Event) :
  own_marks id ev = [] -> own_chunks id ev = [].
Proof.
  induction ev as [|e ev IH]; [reflexivity|]. unfold own_marks, own_chunks in *.
  cbn [flat_map]. intros H. apply app_eq_nil in H as [H1 H2].
  rewrite (IH H2), app_nil_r.
  destruct e as [i|r]; [reflexivity|]. destruct r; try reflexivity.
  destruct (Nat.eqb id0 id); [discriminate|]. destruct typ; reflexivity.
Qed.



Lemma chunkBody_chunks (u : Ui) (a : Attrs) (es : list Pattern) (draws : list D)
    (k : nat) (m : DisplayEnds) :
  Forall (frames (a_id a)) draws ->
  own_chunks (a_id a) (snd (chunkBody u a es draws (50 * k) m)) = [chunkRange (length es) k].
Proof.
  intros Hd. rewrite chunkBody_unfold, seqD_eq. cbn [snd emit]. rewrite own_chunks_app.
  assert (Hf : frames (a_id a)
     (if ui_chunk_open u (a_id a) (50 * k)
      then seq_all (firstn (Nat.min (length es) (50 * k + ChunkSize) - 50 * k)
                     (skipn (50 * k) draws))
      else skip)).
  { destruct (ui_chunk_open u (a_id a) (50 * k)); [|apply frames_skip].
    apply frames_seq_all. apply Forall_take, Forall_drop, Hd. }
  rewrite (own_chunks_nil _ _ (proj2 (Hf _))), app_nil_r.
  unfold chunkRowAt, own_chunks, chunkRange, ChunkSize. cbn. rewrite Nat.eqb_refl. reflexivity.
Qed.

Lemma chunkLoop_chunks (u : Ui) (a : Attrs) (es : list Pattern) (draws : list D) :
  Forall (frames (a_id a)) draws ->
  forall fuel k m,
  0 <= displayEndOf m (a_id a) ->
  (k <= Z.to_nat (displayEndOf m (a_id a)))%nat ->
  ((length es + 49) / 50 <= k + fuel)%nat ->
  own_chunks (a_id a) (snd (chunkLoop u a es draws fuel (50 * k) (Z.of_nat k) m)) =
  map (chunkRange (length es))
      (seq k (Nat.min ((length es + 49) / 50) (Z.to_nat (displayEndOf m (a_id a))) - k)).
Proof.
  intros Hd fuel. induction fuel as [|fuel IH]; intros k m Hpos Hk Hfuel;
    set (N := length es) in *; nat_div50 N.
  - cbn [chunkLoop skip snd].
    replace (Nat.min _ _ - k)%nat with O by lia. reflexivity.
  - cbn [chunkLoop]. destruct (Nat.ltb (50 * k) (length es)) eqn:Hlt.
    2:{ apply Nat.ltb_ge in Hlt. fold N in Hlt. cbn [skip snd].
        replace (Nat.min _ _ - k)%nat with O by lia. reflexivity. }
    apply Nat.ltb_lt in Hlt. fold N in Hlt.
    destruct (getDisplayEnd_spec (a_id a) m) as (Hg1 & Hg2 & _).
    destruct (getDisplayEnd (a_id a) m) as [displayEnd m1]. cbn in Hg1, Hg2. subst displayEnd.
    destruct (displayEndOf m (a_id a) <? Z.of_nat k + 1) eqn:Hc.
    + apply Z.ltb_lt in Hc. cbn [snd].
      replace (Nat.min _ _ - k)%nat with O by lia. reflexivity.
    + apply Z.ltb_ge in Hc. rewrite seqD_eq. cbn [snd]. rewrite own_chunks_app.
      rewrite (chunkBody_chunks u a es draws k m1 Hd).
      destruct (chunkBody_marks u a es draws (50 * k) m1 Hd) as [_ Hb2].
      assert (Hm2 : displayEndOf (fst (chunkBody u a es draws (50 * k) m1)) (a_id a)
                    = displayEndOf m (a_id a)).
      { unfold displayEndOf at 1. rewrite Hb2, Hg2. reflexivity. }
      replace (50 * k + ChunkSize)%nat with (50 * S k)%nat by (unfold ChunkSize; lia).
      replace (Z.of_nat k + 1) with (Z.of_nat (S k)) by lia.
      rewrite IH by (rewrite ?Hm2; lia). rewrite Hm2.
      replace (Nat.min ((N + 49) / 50) (Z.to_nat (displayEndOf m (a_id a))) - k)%nat
        with (S (Nat.min ((N + 49) / 50) (Z.to_nat (displayEndOf m (a_id a))) - S k))
        by lia.
      reflexivity.
Qed.

Lemma chunk_count_sum (N k n : nat) :
  (n = 0 \/ 50 * (k + n - 1) < N)%nat ->
  (fold_right plus 0 (map (fun c : nat * nat * nat => snd c) (map (chunkRange N) (seq k n)))
     + Nat.min N (50 * k) = Nat.min N (50 * (k + n)))%nat.
Proof.
  revert k. induction n as [|n IH]; intros k Hn.
  - cbn [seq map fold_right]. rewrite Nat.add_0_r. reflexivity.
  - cbn [seq map fold_right]. unfold chunkRange at 1. cbn [snd].
    specialize (IH (S k) ltac:(lia)).
    replace (S k + n)%nat with (k + S n)%nat in IH by lia. lia.
Qed.


Lemma drawArray_open (u : Ui) (a : Attrs) (es : list Pattern) (draws : list D) (m : DisplayEnds) :
  length es <> O ->
  (a_inlined a = true \/ (a_sealed a = false /\ ui_node_open u (a_id a) = true)) ->
  drawArray u a es draws (a_inlined a) m =
    (fst (chunkLoop u a es draws (length es) 0 0 m),
     (if a_inlined a then []
      else [headerRow u a (if a_sealed a then Some (a_color a) else None)
              (TypeArray (a_typeName a) (length es))]) ++
     snd (chunkLoop u a es draws (length es) 0 0 m)).
Proof.
  intros Hn Hopen. unfold drawArray.
  replace (Nat.eqb (length es) 0) with false by (symmetry; apply Nat.eqb_neq; exact Hn).
  assert (Ho : (if a_inlined a then true else createTreeNode u a) = true).
  { unfold createTreeNode. destruct Hopen as [-> | [Hs Hu]]; [reflexivity|].
    destruct (a_inlined a); [reflexivity|]. rewrite Hs. exact Hu. }
  rewrite Ho, seqD_eq. destruct (a_inlined a); reflexivity.
Qed.

Lemma draws_frame (u : Ui) (a : Attrs) (es : list Pattern) :
  ~ In (a_id a) (flat_map ids_of es) -> Forall (frames (a_id a)) (map (draw u) es).
Proof.
  intros Hfresh. apply List.Forall_forall. intros x Hx. apply in_map_iff in Hx as (q & <- & Hq).
  apply frames_accept. intros Hin. apply Hfresh. apply in_flat_map. eauto.
Qed.

(** The chunk summary rows of an open array tile its entries: the [j]-th
    row covers entries [50 j] to [min(N, 50 j + 50) - 1] and its type
    column counts those entries, for the first [min(chunks, d)] chunks,
    where [d] is the node's display end. Once all chunks are revealed the
    counts add up to the entry count [N], hidden entries included. *)
Theorem array_chunk_ranges (u : Ui) (a : Attrs) (es : list Pattern) (m : DisplayEnds) :
  a_hidden a = false ->
  (a_inlined a = true \/ (a_sealed a = false /\ ui_node_open u (a_id a) = true)) ->
  ~ In (a_id a) (flat_map ids_of es) ->
  0 <= displayEndOf m (a_id a) ->
  let chunks := ((length es + 49) / 50)%nat in
  let d := Z.to_nat (displayEndOf m (a_id a)) in
  own_chunks (a_id a) (snd (draw u (PArrayStatic a es) m)) =
    map (chunkRange (length es)) (seq 0 (Nat.min chunks d)) /\
  own_chunks (a_id a) (snd (draw u (PArrayDynamic a es) m)) =
    map (chunkRange (length es)) (seq 0 (Nat.min chunks d)) /\
  ((chunks <= d)%nat ->
   fold_right plus 0%nat (map (fun c : nat * nat * nat => snd c)
                        (own_chunks (a_id a) (snd (draw u (PArrayStatic a es) m))))
   = length es).
Proof.
  intros Hh Hopen Hfresh Hpos chunks d.
  assert (Harr : own_chunks (a_id a) (snd (draw u (PArrayStatic a es) m)) =
                 map (chunkRange (length es)) (seq 0 (Nat.min chunks d))).
  { unfold draw. cbn [attrs_of]. rewrite Hh, accept_array_static, seqD_eq.
    cbn [fst snd emit]. rewrite own_chunks_app.
    destruct (Nat.eq_dec (length es) 0%nat) as [Hn|Hn].
    - unfold drawArray. subst chunks. rewrite Hn. reflexivity.
    - rewrite (drawArray_open u a es _ m Hn Hopen). cbn [snd]. rewrite own_chunks_app.
      replace (own_chunks (a_id a) (if a_inlined a then [] else _)) with (@nil (nat * nat * nat))
        by (destruct (a_inlined a); reflexivity).
      pose proof (chunkLoop_chunks u a es (map (draw u) es) (draws_frame u a es Hfresh)
                    (length es) 0 m Hpos ltac:(lia) ltac:(nat_div50 (length es); lia)) as HL.
      change (50 * 0)%nat with 0%nat in HL. change (Z.of_nat 0) with 0 in HL.
      rewrite HL, Nat.sub_0_r. reflexivity. }
  split; [exact Harr|]. split; [exact Harr|].
  intros Hcd. rewrite Harr. replace (Nat.min chunks d) with chunks by lia.
  pose proof (chunk_count_sum (length es) 0%nat chunks) as HS.
  subst chunks. nat_div50 (length es).
  rewrite Nat.mul_0_r, Nat.min_0_r, Nat.add_0_r, Nat.add_0_l in HS.
  rewrite HS by lia. lia.
Qed.

Lemma array_chunk_ranges_witness :
  own_chunks 1 (snd (draw (uiOpen None false) arr120 (<[1%nat := 3]> ∅))) =
    [(0, 49, 50); (50, 99, 50); (100, 119, 20)]%nat.
Proof.
  destruct (array_chunk_ranges (uiOpen None false) (node 1 0 120) (u8s 120)
              (<[1%nat := 3]> ∅) eq_refl (or_intror (conj eq_refl eq_refl))
              ltac:(vm_compute; intuition discriminate) ltac:(vm_compute; discriminate))
    as [H _].
  exact H.
Defined.



(** A chunk summary row is highlighted when the selection overlaps
    [[start, start + span - 1)], one byte short of the chunk's bytes
    [[start, start + span)]: a selection of only the chunk's last byte
    highlights the last entry's row but not the chunk's summary row. *)
Theorem chunk_row_misses_last_byte (u : Ui) (a : Attrs) (es : list Pattern) (draws : list D)
    (i : nat) (m : DisplayEnds) :
  let endIndex := Nat.min (length es) (i + ChunkSize) in
  let start := a_offset (entryAt es i) in
  let last := entryAt es (endIndex - 1) in
  0 <= start -> start <= a_offset last -> 0 < a_size last ->
  a_offset last + a_size last <= 2 ^ 64 ->
  ui_selection u = Some (mkRegion (a_offset last + a_size last - 1) 1) ->
  (exists r rest, snd (chunkBody u a es draws i m) = Emit r :: rest /\ row_selected r = false) /\
  selectedA u last = true.
Proof.
  intros endIndex start last H0 H1 H2 H3 Hsel. split.
  - rewrite chunkBody_unfold, seqD_eq. cbn [snd emit]. eexists _, _. split; [reflexivity|].
    unfold chunkRowAt. cbn [row_selected]. unfold isPatternSelected. rewrite Hsel.
    unfold Region_overlaps, wrap64. cbn [r_address r_size].
    fold endIndex start last.
    rewrite Z.mod_small by lia. apply Z.ltb_ge. lia.
  - unfold selectedA, isPatternSelected. rewrite Hsel. unfold Region_overlaps.
    cbn [r_address r_size]. apply Z.ltb_lt. lia.
Qed.

Lemma chunk_row_misses_last_byte_witness :
  (exists r rest, snd (chunkBody (uiOpen (Some (mkRegion 49 1)) false) (node 1 0 120) (u8s 120)
                         [] 0 ∅) = Emit r :: rest /\ row_selected r = false) /\
  selectedA (uiOpen (Some (mkRegion 49 1)) false) (entryAt (u8s 120) 49) = true.
Proof.
  exact (chunk_row_misses_last_byte (uiOpen (Some (mkRegion 49 1)) false) (node 1 0 120)
           (u8s 120) [] 0 ∅ ltac:(vm_compute; discriminate) ltac:(vm_compute; discriminate)
           ltac:(vm_compute; reflexivity) ltac:(vm_compute; discriminate) eq_refl).
Defined.

(** *** The ImGui stacks are balanced *)

Lemma seqC_eq (x y : Dc) (m : DisplayEnds) :
  seqC x y m = (fst (y (fst (x m))), snd (x m) ++ snd (y (fst (x m)))).
Proof. unfold seqC. destruct (x m) as [m1 c1]. cbn. destruct (y m1). reflexivity. Qed.

Lemma depthAfter_app (s : Stack) (d : nat) (l1 l2 : list Call) :
  depthAfter s d (l1 ++ l2) =
    match depthAfter s d l1 with Some d' => depthAfter s d' l2 | None => None end.
Proof.
  revert d. induction l1 as [|[t|t] r IH]; intros d; cbn [app depthAfter]; [reflexivity| |].
  - destruct (stack_eqb s t); apply IH.
  - destruct (stack_eqb s t); [destruct d; [reflexivity|]|]; apply IH.
Qed.

Lemma balanced_prefix (l1 l2 : list Call) (s : Stack) (d : nat) :
  balanced l1 -> depthAfter s d (l1 ++ l2) = depthAfter s d l2.
Proof. intros H. rewrite depthAfter_app, H. reflexivity. Qed.

Definition bal (x : Dc) : Prop := forall m, balanced (snd (x m)).

Lemma bal_skip : bal skipC.
Proof. intros m s d. reflexivity. Qed.

Lemma bal_calls (l : list Call) : balanced l -> bal (callsC l).
Proof. intros H m. exact H. Qed.

Lemma bal_seq (x y : Dc) : bal x -> bal y -> bal (seqC x y).
Proof.
  intros Hx Hy m s d. rewrite seqC_eq. cbn [snd].
  rewrite balanced_prefix by apply Hx. apply Hy.
Qed.

Lemma bal_seq_all (l : list Dc) : Forall bal l -> bal (seq_allC l).
Proof. induction 1; cbn [seq_allC]; [apply bal_skip | apply bal_seq; assumption]. Qed.

(** A push, a balanced body and the matching pop. *)
Lemma bal_bracket (pre post : list Call) (x : Dc) :
  bal x -> balanced (pre ++ post) -> bal (seqC (callsC pre) (seqC x (callsC post))).
Proof.
  intros Hx Hp m s d. specialize (Hp s d).
  rewrite !seqC_eq. cbn [fst snd callsC].
  rewrite depthAfter_app in Hp |- *. destruct (depthAfter s d pre); [|exact Hp].
  rewrite balanced_prefix by apply Hx. exact Hp.
Qed.

Ltac bal_list :=
  let s := fresh "s" in let d := fresh "d" in
  intros s d;
  unfold drawNameColumnC, createLeafNodeC, makeSelectableC, highlightWhenSelectedC;
  repeat match goal with |- context [if ?b then _ else _] => destruct b end;
  destruct s; reflexivity.

(** The header of a composite or an array, then its body when open. *)
Lemma bal_header (u : Ui) (a : Attrs) (isInlined : bool) (body : Dc) :
  bal body ->
  bal (seqC (if isInlined then skipC else callsC (createTreeNodeC u a ++ makeSelectableC))
            (if (if isInlined then true else createTreeNode u a)
             then seqC body (if isInlined then skipC else callsC [Pop StTree])
             else skipC)).
Proof.
  intros Hb. destruct isInlined.
  { apply bal_seq; [apply bal_skip|]. apply bal_seq; [exact Hb | apply bal_skip]. }
  unfold createTreeNode, createTreeNodeC.
  destruct (a_sealed a).
  { apply bal_seq; [apply bal_calls; bal_list | apply bal_skip]. }
  destruct (ui_node_open u (a_id a)).
  - apply bal_bracket; [exact Hb | bal_list].
  - apply bal_seq; [apply bal_calls; bal_list | apply bal_skip].
Qed.

Lemma bal_composite (u : Ui) (a : Attrs) (children : Dc) :
  bal children -> bal (drawCompositeC u a children).
Proof. intros H. unfold drawCompositeC. apply bal_header, H. Qed.

Lemma bal_chunkBody (u : Ui) (a : Attrs) (es : list Pattern) (draws : list Dc) (i : nat) :
  Forall bal draws -> bal (chunkBodyC u a es draws i).
Proof.
  intros Hd. unfold chunkBodyC. cbv zeta.
  destruct (ui_chunk_open u (a_id a) i).
  - apply bal_bracket; [|bal_list]. apply bal_seq_all, Forall_take, Forall_drop, Hd.
  - apply bal_seq; [apply bal_calls; bal_list | apply bal_skip].
Qed.

Lemma bal_chunkLoop (u : Ui) (a : Attrs) (es : list Pattern) (draws : list Dc) :
  Forall bal draws -> forall fuel i cc, bal (chunkLoopC u a es draws fuel i cc).
Proof.
  intros Hd. induction fuel as [|fuel IH]; intros i cc m; cbn [chunkLoopC].
  { apply bal_skip. }
  destruct (Nat.ltb i (length es)); [|apply bal_skip].
  destruct (getDisplayEnd (a_id a) m) as [displayEnd m1].
  destruct (displayEnd <? cc + 1).
  - intros s d. reflexivity.
  - apply bal_seq; [apply bal_chunkBody, Hd | apply IH].
Qed.

Lemma bal_drawArray (u : Ui) (a : Attrs) (es : list Pattern) (draws : list Dc) (inl : bool) :
  Forall bal draws -> bal (drawArrayC u a es draws inl).
Proof.
  intros Hd. unfold drawArrayC. destruct (Nat.eqb (length es) 0); [apply bal_skip|].
  apply bal_header, bal_chunkLoop, Hd.
Qed.

Lemma acceptC_array_dynamic (u : Ui) (a : Attrs) (es : list Pattern) :
  acceptC u (PArrayDynamic a es) = drawArrayC u a es (map (drawC u) es) (a_inlined a).
Proof. reflexivity. Qed.

Lemma acceptC_array_static (u : Ui) (a : Attrs) (es : list Pattern) :
  acceptC u (PArrayStatic a es) = drawArrayC u a es (map (drawC u) es) (a_inlined a).
Proof. reflexivity. Qed.

Lemma acceptC_bitfield (u : Ui) (a : Attrs) (es : list Pattern) :
  acceptC u (PBitfield a es) = drawCompositeC u a (seq_allC (map (drawC u) es)).
Proof. reflexivity. Qed.

Lemma acceptC_struct (u : Ui) (a : Attrs) (es : list Pattern) :
  acceptC u (PStruct a es) = drawCompositeC u a (seq_allC (map (drawC u) es)).
Proof. reflexivity. Qed.

Lemma acceptC_union (u : Ui) (a : Attrs) (es : list Pattern) :
  acceptC u (PUnion a es) = drawCompositeC u a (seq_allC (map (drawC u) es)).
Proof. reflexivity. Qed.

Lemma bal_accept (u : Ui) (p : Pattern) : bal (acceptC u p) /\ bal (drawC u p).
Proof.
  revert p.
  apply (Pattern_children_ind (fun p => bal (acceptC u p) /\ bal (drawC u p))).
  intros p IH.
  assert (Hch : Forall bal (map (drawC u) (children p))).
  { apply List.Forall_forall. intros x Hx. apply in_map_iff in Hx as (q & <- & Hq).
    apply (IH q Hq). }
  assert (Hacc : bal (acceptC u p)).
  { destruct p; cbn [children] in Hch;
      rewrite ?acceptC_array_dynamic, ?acceptC_array_static, ?acceptC_bitfield,
              ?acceptC_struct, ?acceptC_union.
    all: try (apply bal_drawArray; exact Hch).
    all: try (apply bal_composite, bal_seq_all; exact Hch).
    all: cbn [acceptC].
    all: unfold createDefaultEntryC, visitEnumC, visitBitfieldFieldC.
    all: try (destruct (0 <? a_size a)).
    all: try (apply bal_calls; bal_list).
    (* the pointee *)
    all: apply bal_composite, (IH p (or_introl eq_refl)). }
  split; [exact Hacc|]. unfold drawC.
  destruct (a_hidden (attrs_of p)); [apply bal_skip | exact Hacc].
Qed.

(** The stack-call model threads the display ends exactly as the row
    model does. *)
Definition agree (x : Dc) (y : D) : Prop := forall m, fst (x m) = fst (y m).

Lemma agree_skip : agree skipC skip.
Proof. intros m. reflexivity. Qed.

Lemma agree_calls_emit (l : list Call) (e : Event) : agree (callsC l) (emit e).
Proof. intros m. reflexivity. Qed.

Lemma agree_seq (x x' : Dc) (y y' : D) :
  agree x y -> agree x' y' -> agree (seqC x x') (y ;; y').
Proof. intros Hx Hy m. rewrite seqC_eq, seqD_eq. cbn [fst]. rewrite Hx. apply Hy. Qed.

Lemma agree_seq_r (x : Dc) (y : D) (l : list Call) :
  agree x y -> agree (seqC x (callsC l)) y.
Proof. intros Hx m. rewrite seqC_eq. apply Hx. Qed.

Lemma agree_visit (x : Dc) (y : D) (id : nat) : agree x y -> agree x (emit (Visit id) ;; y).
Proof. intros Hx m. rewrite seqD_eq. apply Hx. Qed.

Lemma agree_seq_all (l : list Dc) (l' : list D) :
  Forall2 agree l l' -> agree (seq_allC l) (seq_all l').
Proof. induction 1; cbn [seq_allC seq_all]; [apply agree_skip | apply agree_seq; assumption]. Qed.

Lemma agree_header (u : Ui) (a : Attrs) (isInlined : bool) (body : Dc) (body' : D)
    (header : Event) :
  agree body body' ->
  agree (seqC (if isInlined then skipC else callsC (createTreeNodeC u a ++ makeSelectableC))
              (if (if isInlined then true else createTreeNode u a)
               then seqC body (if isInlined then skipC else callsC [Pop StTree])
               else skipC))
        ((if isInlined then skip else emit header) ;;
         (if (if isInlined then true else createTreeNode u a) then body' else skip)).
Proof.
  intros Hb. destruct isInlined.
  - apply agree_seq; [apply agree_skip|]. apply agree_seq_r. intros m. apply Hb.
  - apply agree_seq; [apply agree_calls_emit|].
    destruct (createTreeNode u a); [apply agree_seq_r, Hb | apply agree_skip].
Qed.

Lemma agree_chunkLoop (u : Ui) (a : Attrs) (es : list Pattern) (dc : list Dc) (ds : list D) :
  Forall2 agree dc ds -> forall fuel i cc,
  agree (chunkLoopC u a es dc fuel i cc) (chunkLoop u a es ds fuel i cc).
Proof.
  intros Hd. induction fuel as [|fuel IH]; intros i cc m; cbn [chunkLoopC chunkLoop].
  { reflexivity. }
  destruct (Nat.ltb i (length es)); [|reflexivity].
  destruct (getDisplayEnd (a_id a) m) as [displayEnd m1].
  destruct (displayEnd <? cc + 1); [reflexivity|].
  apply agree_seq; [|apply IH].
  unfold chunkBodyC. rewrite chunkBody_unfold. cbv zeta.
  apply agree_seq; [apply agree_calls_emit|].
  destruct (ui_chunk_open u (a_id a) i); [|apply agree_skip].
  apply agree_seq_r, agree_seq_all, Forall2_take, Forall2_drop, Hd.
Qed.

Lemma agree_map_draw (u : Ui) (es : list Pattern) :
  (forall q, In q es -> agree (drawC u q) (draw u q)) ->
  Forall2 agree (map (drawC u) es) (map (draw u) es).
Proof.
  induction es as [|q r IHr]; intros H; cbn [map]; constructor.
  - apply H. left. reflexivity.
  - apply IHr. intros q' Hq'. apply H. right. exact Hq'.
Qed.

Lemma agree_accept (u : Ui) (p : Pattern) :
  agree (acceptC u p) (accept u p) /\ agree (drawC u p) (draw u p).
Proof.
  revert p.
  apply (Pattern_children_ind (fun p =>
           agree (acceptC u p) (accept u p) /\ agree (drawC u p) (draw u p))).
  intros p IH.
  assert (Hch : Forall2 agree (map (drawC u) (children p)) (map (draw u) (children p))).
  { apply agree_map_draw. intros q Hq. apply (IH q Hq). }
  assert (Hacc : agree (acceptC u p) (accept u p)).
  { destruct p; cbn [children] in Hch;
      rewrite ?acceptC_array_dynamic, ?acceptC_array_static, ?acceptC_bitfield,
              ?acceptC_struct, ?acceptC_union,
              ?accept_array_dynamic, ?accept_array_static, ?accept_bitfield,
              ?accept_struct, ?accept_union;
      apply agree_visit.
    all: try (match goal with |- agree (drawArrayC _ _ ?l _ _) _ =>
                unfold drawArrayC, drawArray; destruct (Nat.eqb (length l) 0);
                [apply agree_skip | apply agree_header, agree_chunkLoop, Hch] end).
    all: try (unfold visitBitfield, visitStruct, visitUnion, drawCompositeC, drawComposite;
              apply agree_header, agree_seq_all, Hch).
    all: try (cbn [acceptC]; unfold createDefaultEntryC, visitEnumC, visitBitfieldFieldC;
              intros m; reflexivity).
    all: try (cbn [acceptC]; destruct (0 <? a_size a); intros m; reflexivity).
    (* the pointee *)
    all: unfold visitPointer, drawCompositeC, drawComposite;
         apply agree_header, (IH p (or_introl eq_refl)). }
  split; [exact Hacc|]. unfold drawC, draw.
  destruct (a_hidden (attrs_of p)); [apply agree_skip | exact Hacc].
Qed.

(** Drawing a node, or the whole list of a table, never pops an ImGui tree,
    ID, style color or indent below the depth it found and leaves each of
    them at that depth: every [TreeNodeEx] that opens is matched by a
    [TreePop] (headers unless inlined, chunks when expanded, also when the
    chunk loop stops at the placeholder), every [PushID] and
    [PushStyleColor] by its pop, every [Indent] by [Unindent]. *)
Theorem draw_stacks_balanced (u : Ui) (ps : list Pattern) (m : DisplayEnds) :
  (forall p, balanced (snd (drawC u p m))) /\ balanced (snd (drawAllTopC u ps m)).
Proof.
  split.
  - intros p. apply (proj2 (bal_accept u p)).
  - unfold drawAllTopC. apply bal_seq_all.
    apply List.Forall_forall. intros x Hx. apply in_map_iff in Hx as (q & <- & _).
    apply (proj2 (bal_accept u q)).
Qed.
